(** * simplelru.LRUWithAccounting: an LRU cache bounded by accounted weight

    A shallow embedding of [simplelru/lru_accounting.go] and the
    verification of its bookkeeping: the recency list, the key index, the
    accounted size and the eviction loop.

    Layout: the Go values and the memory the cache points into, then the
    methods in the order of the source file, then the representation
    invariant and the theorems. *)

From Stdlib Require Import ZArith Lia.
From stdpp Require Import base tactics option list numbers gmap fin_maps strings.

Local Open Scope Z_scope.

(** ** Go's [int]

    [limit], [size] and every accounted weight are Go [int]s.  On the
    64-bit targets the package is built for, [int] is a 64-bit two's
    complement integer whose arithmetic wraps around silently. *)

Definition int_bits : Z := 64.
Definition min_int : Z := - 2 ^ (int_bits - 1).
Definition max_int : Z := 2 ^ (int_bits - 1) - 1.

(** The value an [int] variable holds after an arithmetic result [z]. *)
Definition wrap (z : Z) : Z :=
  (z + 2 ^ (int_bits - 1)) `mod` 2 ^ int_bits - 2 ^ (int_bits - 1).

Definition is_int (z : Z) : Prop := min_int ≤ z ≤ max_int.

(** ** Outcomes of a call

    A call returns ([Done]), stops the program with a run-time panic (a nil
    dereference or an index out of range), or is still running when the
    fuel given to its loop is used up. *)

Inductive outcome (A : Type) : Type :=
  | Done (a : A)
  | Panic
  | OutOfFuel.
Arguments Done {A} a.
Arguments Panic {A}.
Arguments OutOfFuel {A}.

Global Instance outcome_ret : MRet outcome := λ A a, Done a.
Global Instance outcome_bind : MBind outcome := λ A B f m,
  match m with
  | Done a => f a
  | Panic => Panic
  | OutOfFuel => OutOfFuel
  end.

(** Dereferencing a pointer that may be nil. *)
Definition deref {A} (o : option A) : outcome A :=
  match o with
  | Some a => Done a
  | None => Panic
  end.

(** ** container/list

    [*list.Element] values are addresses; a [*list.List] is the sequence of
    its elements from front to back.  An element is linked at most once. *)

Abbreviation Element := positive.

Module List_.
Definition PushFront (e : Element) (l : list Element) : list Element :=
  e :: l.

(** [l.Remove(e)] unlinks [e]; nothing happens when [e] is not in [l]. *)
Definition Remove (e : Element) (l : list Element) : list Element :=
  filter (λ x, x ≠ e) l.

(** [l.MoveToFront(e)]: nothing happens when [e] is not in [l]. *)
Definition MoveToFront (e : Element) (l : list Element) : list Element :=
  if decide (e ∈ l) then e :: Remove e l else l.

(** [l.Back()]: [None] is the nil element of an empty list. *)
Definition Back (l : list Element) : option Element := last l.

Definition Init (l : list Element) : list Element := [].

Definition Len (l : list Element) : Z := Z.of_nat (length l).
End List_.

Section simplelru.
Context {K : Type} `{Countable K} {V : Type}.
(** The state of the caller's world that an eviction callback acts on. *)
Context {Obs : Type}.

(** Modelled from the spec: the type [EvictCallback] is declared in a file
    of the package that is not part of the sources at hand; it is a
    function called with the evicted key and value, for its effect. *)
Definition EvictCallback : Type := K → V → Obs → Obs.

Definition AccountCallback : Type := K → V → Z.

(** Modelled from the spec: the struct [entry] is declared in the same
    missing file; the code uses its two fields [key] and [value]. *)
Record entry : Type := Entry { key : K; value : V }.

(** The fields of the Go struct, followed by what the struct points into:
    [heap] gives the [*entry] stored in the [Value] of every allocated
    element, and [world] is the state the eviction callback acts on. *)
Record LRUWithAccounting : Type := mkLRU {
  limit : Z;
  size : Z;
  evictList : list Element;
  items : gmap K Element;
  onEvict : option EvictCallback;
  onAccount : AccountCallback;
  heap : gmap Element entry;
  world : Obs;
}.

Definition set_limit (x : Z) (c : LRUWithAccounting) : LRUWithAccounting :=
  mkLRU x (size c) (evictList c) (items c) (onEvict c) (onAccount c)
        (heap c) (world c).
Definition set_size (x : Z) (c : LRUWithAccounting) : LRUWithAccounting :=
  mkLRU (limit c) x (evictList c) (items c) (onEvict c) (onAccount c)
        (heap c) (world c).
Definition set_evictList (x : list Element) (c : LRUWithAccounting)
  : LRUWithAccounting :=
  mkLRU (limit c) (size c) x (items c) (onEvict c) (onAccount c)
        (heap c) (world c).
Definition set_items (x : gmap K Element) (c : LRUWithAccounting)
  : LRUWithAccounting :=
  mkLRU (limit c) (size c) (evictList c) x (onEvict c) (onAccount c)
        (heap c) (world c).
Definition set_heap (x : gmap Element entry) (c : LRUWithAccounting)
  : LRUWithAccounting :=
  mkLRU (limit c) (size c) (evictList c) (items c) (onEvict c) (onAccount c)
        x (world c).
Definition set_world (x : Obs) (c : LRUWithAccounting) : LRUWithAccounting :=
  mkLRU (limit c) (size c) (evictList c) (items c) (onEvict c) (onAccount c)
        (heap c) x.

(** [if c.onEvict != nil { c.onEvict(k, v) }] *)
Definition fire (c : LRUWithAccounting) (k : K) (v : V) : LRUWithAccounting :=
  match onEvict c with
  | Some f => set_world (f k v (world c)) c
  | None => c
  end.

(** [NewLRUWithAccounting]: [None] is the error "must provide a positive
    size".  The new cache points into the memory [h] and world [w] of the
    caller. *)
Definition NewLRUWithAccounting (lim : Z) (acc : AccountCallback)
    (ev : option EvictCallback) (h : gmap Element entry) (w : Obs)
  : option LRUWithAccounting :=
  if decide (lim ≤ 0) then None
  else Some (mkLRU lim 0 [] ∅ ev acc h w).

(** [removeElement] *)
Definition removeElement (e : Element) (c : LRUWithAccounting)
  : outcome LRUWithAccounting :=
  let c := set_evictList (List_.Remove e (evictList c)) c in
  kv ← deref (heap c !! e);
  let c := set_items (delete (key kv) (items c)) c in
  let c := fire c (key kv) (value kv) in
  mret (set_size (wrap (size c - onAccount c (key kv) (value kv))) c).

(** [removeOldest] *)
Definition removeOldest (c : LRUWithAccounting) : outcome LRUWithAccounting :=
  match List_.Back (evictList c) with
  | Some ent => removeElement ent c
  | None => mret c
  end.

(** The loop [for c.size > c.limit { c.removeOldest() }]: one unit of fuel
    per iteration. *)
Fixpoint evict_loop (fuel : nat) (c : LRUWithAccounting)
  : outcome LRUWithAccounting :=
  if decide (size c > limit c) then
    match fuel with
    | O => OutOfFuel
    | S fuel' => c' ← removeOldest c; evict_loop fuel' c'
    end
  else mret c.

(** [evictIfNeeded] *)
Definition evictIfNeeded (fuel : nat) (c : LRUWithAccounting)
  : outcome (bool * LRUWithAccounting) :=
  let evict := bool_decide (size c > limit c) in
  c' ← evict_loop fuel c;
  mret (evict, c').

(** The two branches of [Add] up to their common last statement
    [return c.evictIfNeeded()]: the update of an existing item and the
    insertion of a new one. *)
Definition Add_place (k : K) (v : V) (c : LRUWithAccounting)
  : outcome LRUWithAccounting :=
  match items c !! k with
  | Some ent =>
      let c := set_evictList (List_.MoveToFront ent (evictList c)) c in
      kv ← deref (heap c !! ent);
      let c := set_size (wrap (size c - onAccount c (key kv) (value kv))) c in
      let c := set_heap (<[ent := Entry (key kv) v]> (heap c)) c in
      mret (set_size (wrap (size c + onAccount c (key kv) v)) c)
  | None =>
      let ent := fresh (dom (heap c)) in
      let c := set_heap (<[ent := Entry k v]> (heap c)) c in
      let c := set_evictList (List_.PushFront ent (evictList c)) c in
      let c := set_items (<[k := ent]> (items c)) c in
      mret (set_size (wrap (size c + onAccount c k v)) c)
  end.

(** [Add] *)
Definition Add (fuel : nat) (k : K) (v : V) (c : LRUWithAccounting)
  : outcome (bool * LRUWithAccounting) :=
  c ← Add_place k v c;
  evictIfNeeded fuel c.

(** [Purge].  Go leaves the order in which [range c.items] visits the map
    unspecified: [order] is the order of one run, a permutation of the
    pairs of [c.items]. *)
Definition Purge_visit (c : LRUWithAccounting) (kv : K * Element)
  : outcome LRUWithAccounting :=
  c ← match onEvict c with
      | Some f =>
          en ← deref (heap c !! kv.2);
          mret (set_world (f kv.1 (value en) (world c)) c)
      | None => mret c
      end;
  mret (set_items (delete kv.1 (items c)) c).

Fixpoint Purge_range (order : list (K * Element)) (c : LRUWithAccounting)
  : outcome LRUWithAccounting :=
  match order with
  | [] => mret c
  | kv :: rest => c' ← Purge_visit c kv; Purge_range rest c'
  end.

Definition Purge (order : list (K * Element)) (c : LRUWithAccounting)
  : outcome LRUWithAccounting :=
  c ← Purge_range order c;
  let c := set_evictList (List_.Init (evictList c)) c in
  mret (set_size 0 c).

Definition iteration_order (order : list (K * Element))
    (c : LRUWithAccounting) : Prop :=
  order ≡ₚ map_to_list (items c).

(** [Get]: the value is [None] for Go's nil. *)
Definition Get (k : K) (c : LRUWithAccounting)
  : (option V * bool) * LRUWithAccounting :=
  match items c !! k with
  | Some ent =>
      let c := set_evictList (List_.MoveToFront ent (evictList c)) c in
      match heap c !! ent with
      | None => ((None, false), c)
      | Some kv => ((Some (value kv), true), c)
      end
  | None => ((None, false), c)
  end.

(** [Contains] *)
Definition Contains (k : K) (c : LRUWithAccounting)
  : bool * LRUWithAccounting :=
  (bool_decide (is_Some (items c !! k)), c).

(** [Peek] *)
Definition Peek (k : K) (c : LRUWithAccounting)
  : outcome ((option V * bool) * LRUWithAccounting) :=
  match items c !! k with
  | Some ent =>
      kv ← deref (heap c !! ent);
      mret ((Some (value kv), true), c)
  | None => mret ((None, false), c)
  end.

(** [Remove] *)
Definition Remove (k : K) (c : LRUWithAccounting)
  : outcome (bool * LRUWithAccounting) :=
  match items c !! k with
  | Some ent => c' ← removeElement ent c; mret (true, c')
  | None => mret (false, c)
  end.

(** [RemoveOldest] *)
Definition RemoveOldest (c : LRUWithAccounting)
  : outcome ((option K * option V * bool) * LRUWithAccounting) :=
  match List_.Back (evictList c) with
  | Some ent =>
      c' ← removeElement ent c;
      kv ← deref (heap c' !! ent);
      mret ((Some (key kv), Some (value kv), true), c')
  | None => mret ((None, None, false), c)
  end.

(** [GetOldest] *)
Definition GetOldest (c : LRUWithAccounting)
  : outcome ((option K * option V * bool) * LRUWithAccounting) :=
  match List_.Back (evictList c) with
  | Some ent =>
      kv ← deref (heap c !! ent);
      mret ((Some (key kv), Some (value kv), true), c)
  | None => mret ((None, None, false), c)
  end.

(** [Keys].  The slice is made with [len(c.items)] nil slots and filled
    while walking the list from the back with [Prev]; storing beyond its
    end panics. *)
Fixpoint Keys_walk (c : LRUWithAccounting) (ents : list Element) (i : nat)
    (keys : list (option K)) : outcome (list (option K)) :=
  match ents with
  | [] => mret keys
  | ent :: prev =>
      kv ← deref (heap c !! ent);
      if decide (i < length keys)%nat
      then Keys_walk c prev (S i) (<[i := Some (key kv)]> keys)
      else Panic
  end.

Definition Keys (c : LRUWithAccounting) : outcome (list (option K)) :=
  Keys_walk c (reverse (evictList c)) 0 (replicate (base.size (items c)) None).

(** [Len] *)
Definition Len (c : LRUWithAccounting) : Z := List_.Len (evictList c).

(** The loop [for i := 0; i < diff; i++ { c.removeOldest() }], by the
    number of iterations left. *)
Fixpoint Resize_loop (n : nat) (c : LRUWithAccounting)
  : outcome LRUWithAccounting :=
  match n with
  | O => mret c
  | S n' => c' ← removeOldest c; Resize_loop n' c'
  end.

(** [Resize] *)
Definition Resize (sz : Z) (c : LRUWithAccounting)
  : outcome (Z * LRUWithAccounting) :=
  let diff := wrap (Len c - sz) in
  let diff := if decide (diff < 0) then 0 else diff in
  c' ← Resize_loop (Z.to_nat diff) c;
  mret (diff, set_limit sz c').

(** [AccountingSize] *)
Definition AccountingSize (c : LRUWithAccounting) : Z := size c.

(** ** The abstract view of a cache and its representation invariant *)

(** The entries of the cache in recency order, most recently used first. *)
Definition entries (c : LRUWithAccounting) : list entry :=
  omap (λ e, heap c !! e) (evictList c).

Definition weight (c : LRUWithAccounting) (en : entry) : Z :=
  onAccount c (key en) (value en).

Definition sumZ (l : list Z) : Z := foldr Z.add 0 l.

(** The sum of the accounted weights of the entries, as a number. *)
Definition total_weight (c : LRUWithAccounting) : Z :=
  sumZ (weight c <$> entries c).

(** The states the methods keep the cache in: the elements of the list are
    distinct, the index and the list hold the same entries, each indexed
    under its own key, and [size] is the total weight as an [int]. *)
Record WF (c : LRUWithAccounting) : Prop := mkWF {
  wf_linked : NoDup (evictList c);
  wf_list : ∀ e, e ∈ evictList c →
    ∃ en, heap c !! e = Some en ∧ items c !! key en = Some e;
  wf_items : ∀ k e, items c !! k = Some e →
    e ∈ evictList c ∧ ∃ en, heap c !! e = Some en ∧ key en = k;
  wf_count : base.size (items c) = length (evictList c);
  wf_size : size c = wrap (total_weight c);
  wf_limit : is_int (limit c);
}.

(** The weights are non-negative and their sum is an [int]. *)
Definition weights_fit (c : LRUWithAccounting) : Prop :=
  Forall (λ en, 0 ≤ weight c en) (entries c) ∧ total_weight c ≤ max_int.

(** ** The eviction loop, in the words of its description *)

(** The world after the callback, if any, has been called on [en]. *)
Definition world_after (c : LRUWithAccounting) (en : entry) : Obs :=
  match onEvict c with
  | Some f => f (key en) (value en) (world c)
  | None => world c
  end.

(** The cache whose list is [l ++ [e]], after its back entry [en] has been
    removed: the weight subtracted, the callback fired, the key deleted
    from the index. *)
Definition drop_back (c : LRUWithAccounting) (l : list Element) (en : entry)
  : LRUWithAccounting :=
  mkLRU (limit c) (wrap (size c - weight c en)) l
        (delete (key en) (items c)) (onEvict c) (onAccount c) (heap c)
        (world_after c en).

(** The state after the update of the item of [k], found at [ent] with the
    value [old], the list being [l1 ++ ent :: l2]. *)
Definition updated (c : LRUWithAccounting) (k : K) (v : V) (ent : Element)
    (old : V) (l1 l2 : list Element) : LRUWithAccounting :=
  mkLRU (limit c) (wrap (size c + (onAccount c k v - onAccount c k old)))
        (ent :: l1 ++ l2) (items c) (onEvict c) (onAccount c)
        (<[ent := Entry k v]> (heap c)) (world c).

(** The state after the insertion of a new item. *)
Definition inserted (c : LRUWithAccounting) (k : K) (v : V)
  : LRUWithAccounting :=
  let ent := fresh (dom (heap c)) in
  mkLRU (limit c) (wrap (size c + onAccount c k v))
        (ent :: evictList c) (<[k := ent]> (items c)) (onEvict c)
        (onAccount c) (<[ent := Entry k v]> (heap c)) (world c).

(** [removed_back c evs c']: the entries [evs] are removed from the back
    of the list of [c], one after the other, which gives [c']. *)
Inductive removed_back
  : LRUWithAccounting → list entry → LRUWithAccounting → Prop :=
  | removed_none c :
      removed_back c [] c
  | removed_next c l e en evs c' :
      evictList c = l ++ [e] →
      heap c !! e = Some en →
      removed_back (drop_back c l en) evs c' →
      removed_back c (en :: evs) c'.

(** [evicts c evs c']: starting from [c], the least recently used entry is
    removed while the size exceeds the limit; [evs] are the entries removed,
    in the order of their removal, and [c'] is the cache at the end. *)
Inductive evicts : LRUWithAccounting → list entry → LRUWithAccounting → Prop :=
  | evicts_done c :
      size c ≤ limit c → evicts c [] c
  | evicts_back c l e en evs c' :
      limit c < size c →
      evictList c = l ++ [e] →
      heap c !! e = Some en →
      evicts (drop_back c l en) evs c' →
      evicts c (en :: evs) c'.

(** The world after the callback [f], if any, has been called on each of
    [calls] in turn. *)
Definition fire_all (f : option EvictCallback) (calls : list entry) (w : Obs)
  : Obs :=
  foldl (λ w en, match f with
                 | Some g => g (key en) (value en) w
                 | None => w
                 end) w calls.

(** [calls] is right for an operation that took the cache from the entries
    [before] to the entries [after]: an entry whose key is gone was passed to
    the callback exactly once, and every call was for a departed entry. *)
Definition callbacks_exact (before after calls : list entry) : Prop :=
  (∀ en, en ∈ before → key en ∉ key <$> after →
     ∃ l1 l2, calls = l1 ++ en :: l2 ∧ key en ∉ key <$> (l1 ++ l2)) ∧
  (∀ en, en ∈ calls → en ∈ before ∧ key en ∉ key <$> after).

(** The entries the callback is called on by [Purge] when the index is
    visited in [order]. *)
Definition purge_calls (c : LRUWithAccounting) (order : list (K * Element))
  : list entry :=
  omap (λ kv, Entry kv.1 ∘ value <$> heap c !! kv.2) order.

(** The bound on the size as the description of the cache words it: the
    size is at most the limit, unless the cache holds a single entry that
    is heavier than the limit. *)
Definition within_limit_or_oversized (c : LRUWithAccounting) : Prop :=
  size c ≤ limit c ∨ ∃ en, entries c = [en] ∧ limit c < weight c en.

(** The cache after [Purge] has visited the index in [order]. *)
Definition purged (c : LRUWithAccounting) (order : list (K * Element))
  : LRUWithAccounting :=
  mkLRU (limit c) 0 [] (foldl (λ m kv, delete kv.1 m) (items c) order)
        (onEvict c) (onAccount c) (heap c)
        (fire_all (onEvict c) (purge_calls c order) (world c)).

(** A check of the representation invariant that computes. *)
Definition WF_check (c : LRUWithAccounting) : bool :=
  bool_decide (NoDup (evictList c))
  && forallb (λ e, match heap c !! e with
                   | Some en => bool_decide (items c !! key en = Some e)
                   | None => false
                   end) (evictList c)
  && forallb (λ kv, bool_decide (kv.2 ∈ evictList c)
                    && match heap c !! kv.2 with
                       | Some en => bool_decide (key en = kv.1)
                       | None => false
                       end) (map_to_list (items c))
  && bool_decide (base.size (items c) = length (evictList c))
  && bool_decide (size c = wrap (total_weight c))
  && bool_decide (is_int (limit c)).

End simplelru.

Arguments LRUWithAccounting : clear implicits.
Arguments LRUWithAccounting K {_ _} V Obs.
Arguments entry : clear implicits.
Arguments EvictCallback : clear implicits.
Arguments AccountCallback : clear implicits.


(** ** The caches of the package's tests

    Keys are strings and values byte strings; the weight of an entry is
    [len(k) + len(v)] and the callback counts the evictions (the first test
    also fails when a key and its value differ, which they never do). *)

Module Tests.
Definition onAccount_len (k v : string) : Z :=
  Z.of_nat (String.length k) + Z.of_nat (String.length v).

Definition onEvicted (k v : string) (evictCounter : nat) : nat :=
  S evictCounter.

Abbreviation cache := (LRUWithAccounting string string nat).

(** [NewLRUWithAccounting(lim, onAccount, onEvicted)] in an empty memory. *)
Definition new (lim : Z) : option cache :=
  NewLRUWithAccounting lim onAccount_len (Some onEvicted) ∅ 0%nat.

(** [for _, k := range ks { l.Add(k, f k) }] *)
Fixpoint add_all (fuel : nat) (f : string → string) (ks : list string)
    (c : cache) : outcome cache :=
  match ks with
  | [] => mret c
  | k :: ks' => r ← Add fuel k (f k) c; add_all fuel f ks' r.2
  end.

Definition digits : list string :=
  ["0"; "1"; "2"; "3"; "4"; "5"; "6"; "7"; "8"; "9"]%string.

(** The cache of [TestLRUWithAccounting] after its first loop. *)
Definition ten_added : outcome cache :=
  c ← deref (new 10); add_all 20 id digits c.

(** The cache of [TestLRUWithAccounting_update] after its two loops. *)
Definition ten_updated : outcome cache :=
  c ← deref (new 20);
  c ← add_all 20 id digits c;
  add_all 20 (λ k, String.append "10" k) digits c.

(** [for _, k := range ks { l.Get(k) }] *)
Definition get_all (ks : list string) (c : cache) : cache :=
  foldl (λ c k, (Get k c).2) c ks.

(** [TestLRUWithAccounting] from its first loop to its end: what [Remove]
    returned for "5", twice, the keys after [Get("7")], and [Len],
    [AccountingSize] and [Get("8")] after [Purge]. *)
Definition whole_test
  : outcome (bool * bool * list (option string) * Z * Z * (option string * bool)) :=
  c ← ten_added;
  let c := get_all (drop 5 digits) c in
  let c := get_all (take 5 digits) c in
  let c := get_all (drop 5 digits) c in
  r1 ← Remove "5" c;
  r2 ← Remove "5" r1.2;
  r3 ← Remove "6" r2.2;
  let c := (Get "7" r3.2).2 in
  ks ← Keys c;
  c ← Purge (map_to_list (items c)) c;
  mret (r1.1, r2.1, ks, Len c, AccountingSize c, (Get "8" c).1).

(** A callback that records its calls, and ten insertions under a limit of
    10 with it. *)
Definition record (k v : string) (log : list (string * string))
  : list (string * string) :=
  log ++ [(k, v)].

Definition ten_recorded : outcome (list (string * string)) :=
  c ← deref (NewLRUWithAccounting 10 onAccount_len (Some record) ∅ []);
  c ← foldr (λ k r, c ← r; x ← Add 20 k k c; mret x.2) (mret c) (reverse digits);
  mret (world c).

(** The caches the examples below start from, written out; each is what
    the calls named beside it return (see [one_reached] and the like). *)

Definition elements (l : list (positive * (string * string)))
  : gmap Element (entry string string) :=
  list_to_map (prod_map id (λ kv, Entry kv.1 kv.2) <$> l).

(** [new 10], then [Add("a", "a")]. *)
Definition one : cache :=
  mkLRU 10 2 [1%positive] (list_to_map [("a"%string, 1%positive)])
        (Some onEvicted) onAccount_len
        (elements [(1%positive, ("a", "a"))%string]) 0%nat.

(** [new 10], then [Add] of "a", "b" and "c", each with itself as value. *)
Definition three : cache :=
  mkLRU 10 6 [3; 2; 1]%positive
        (list_to_map [("a", 1); ("b", 2); ("c", 3)]%string%positive)
        (Some onEvicted) onAccount_len
        (elements [(1, ("a", "a")); (2, ("b", "b")); (3, ("c", "c"))]%string%positive)
        0%nat.

(** [new 10], then [Add] of "5" to "9": five entries of weight 2. *)
Definition five : cache :=
  mkLRU 10 10 [5; 4; 3; 2; 1]%positive
        (list_to_map [("5", 1); ("6", 2); ("7", 3); ("8", 4); ("9", 5)]%string%positive)
        (Some onEvicted) onAccount_len
        (elements [(1, ("5", "5")); (2, ("6", "6")); (3, ("7", "7"));
                   (4, ("8", "8")); (5, ("9", "9"))]%string%positive)
        0%nat.

(** [new 10], then [Resize(-1)]. *)
Definition negative : cache :=
  mkLRU (-1) 0 [] ∅ (Some onEvicted) onAccount_len ∅ 0%nat.

(** [five] after [Resize(5)]: the size is above the limit. *)
Definition over : cache := set_limit 5 five.

(** A value of 16 bytes: with the key "k" its weight is 17. *)
Definition big : string := "0123456789abcdef".
End Tests.

(** ** Facts about [int] arithmetic *)

Lemma wrap_is_int (z : Z) : is_int (wrap z).
Proof.
  unfold is_int, wrap, min_int, max_int, int_bits.
  pose proof (Z.mod_pos_bound (z + 2 ^ (64 - 1)) (2 ^ 64)). lia.
Qed.

Lemma wrap_id (z : Z) : is_int z → wrap z = z.
Proof.
  unfold is_int, wrap, min_int, max_int, int_bits. intros Hz.
  rewrite Z.mod_small; lia.
Qed.

Lemma wrap_add_l (a b : Z) : wrap (wrap a + b) = wrap (a + b).
Proof.
  unfold wrap, int_bits.
  replace ((a + 2 ^ (64 - 1)) `mod` 2 ^ 64 - 2 ^ (64 - 1) + b + 2 ^ (64 - 1))
    with ((a + 2 ^ (64 - 1)) `mod` 2 ^ 64 + b) by lia.
  rewrite Zplus_mod_idemp_l. do 2 f_equal. lia.
Qed.

Lemma wrap_sub_l (a b : Z) : wrap (wrap a - b) = wrap (a - b).
Proof. by rewrite <- !Z.add_opp_r, wrap_add_l. Qed.

Lemma wrap_0 : wrap 0 = 0.
Proof. reflexivity. Qed.

Lemma bind_Done {A B} (a : A) (f : A → outcome B) : Done a ≫= f = f a.
Proof. reflexivity. Qed.

(** ** Facts about the list operations *)

Module List_facts.
Import List_.

Lemma elem_of_Remove (e x : Element) (l : list Element) :
  x ∈ Remove e l ↔ x ∈ l ∧ x ≠ e.
Proof. unfold Remove. rewrite list_elem_of_filter. tauto. Qed.

Lemma Remove_not_linked (e : Element) (l : list Element) :
  e ∉ l → Remove e l = l.
Proof.
  unfold Remove. induction l as [|x l IH]; [done|].
  intros Hx. apply not_elem_of_cons in Hx as [Hne Hl].
  rewrite filter_cons_True by congruence. by rewrite IH.
Qed.

Lemma Remove_app (e : Element) (l1 l2 : list Element) :
  Remove e (l1 ++ l2) = Remove e l1 ++ Remove e l2.
Proof. apply filter_app. Qed.

Lemma Remove_middle (e : Element) (l1 l2 : list Element) :
  NoDup (l1 ++ e :: l2) → Remove e (l1 ++ e :: l2) = l1 ++ l2.
Proof.
  intros Hnd. apply NoDup_app in Hnd as (_ & Hdis & Hnd2).
  apply NoDup_cons in Hnd2 as [He2 _].
  assert (e ∉ l1) as He1.
  { intros Hin. apply (Hdis _ Hin). left. }
  rewrite Remove_app, (Remove_not_linked e l1) by done.
  unfold Remove at 1. rewrite filter_cons_False by (intros Hne; by apply Hne).
  fold (Remove e l2). by rewrite Remove_not_linked.
Qed.

Lemma Remove_NoDup (e : Element) (l : list Element) :
  NoDup l → NoDup (Remove e l).
Proof. apply NoDup_filter. Qed.

Lemma Back_Some (l : list Element) (e : Element) :
  Back l = Some e ↔ ∃ l', l = l' ++ [e].
Proof. apply last_Some. Qed.

Lemma Back_None (l : list Element) : Back l = None ↔ l = [].
Proof. apply last_None. Qed.

Lemma MoveToFront_perm (e : Element) (l : list Element) :
  NoDup l → MoveToFront e l ≡ₚ l.
Proof.
  intros Hnd. unfold MoveToFront. case_decide as Hin; [|done].
  apply list_elem_of_split in Hin as (l1 & l2 & ->).
  rewrite Remove_middle by done. by rewrite Permutation_middle.
Qed.

Lemma MoveToFront_split (e : Element) (l1 l2 : list Element) :
  NoDup (l1 ++ e :: l2) → MoveToFront e (l1 ++ e :: l2) = e :: l1 ++ l2.
Proof.
  intros Hnd. unfold MoveToFront. rewrite decide_True by set_solver.
  by rewrite Remove_middle.
Qed.
End List_facts.

(** ** The representation invariant is kept *)

Section invariant.
Context {K : Type} `{Countable K} {V Obs : Type}.
Implicit Types (c : LRUWithAccounting K V Obs) (e : Element) (en : entry K V).
Import List_facts.

Lemma sumZ_app (l1 l2 : list Z) : sumZ (l1 ++ l2) = sumZ l1 + sumZ l2.
Proof. unfold sumZ. induction l1 as [|x l1 IH]; simpl; lia. Qed.

Lemma sumZ_cons (x : Z) (l : list Z) : sumZ (x :: l) = x + sumZ l.
Proof. reflexivity. Qed.

Lemma sumZ_nonneg (l : list Z) : Forall (λ x, 0 ≤ x) l → 0 ≤ sumZ l.
Proof. unfold sumZ. induction 1; simpl; lia. Qed.

Lemma weight_Entry c (k : K) (v : V) :
  weight c (Entry k v) = onAccount c k v.
Proof. reflexivity. Qed.

(** What the entries are depends on the list and the memory only. *)
Lemma entries_split c l1 e l2 en :
  evictList c = l1 ++ e :: l2 → heap c !! e = Some en →
  entries c = omap (λ x, heap c !! x) l1 ++ en :: omap (λ x, heap c !! x) l2.
Proof.
  intros Hl He. unfold entries. rewrite Hl, omap_app. simpl. by rewrite He.
Qed.

Lemma entries_length c : WF c → length (entries c) = length (evictList c).
Proof.
  intros Hwf. pose proof (wf_list c Hwf) as Hall. unfold entries.
  induction (evictList c) as [|e l IH]; [done|]. simpl.
  destruct (Hall e) as (en & -> & _); [left|]. simpl. f_equal.
  apply IH. intros x Hx. apply Hall. by right.
Qed.

Lemma entries_nil c : WF c → evictList c = [] ↔ entries c = [].
Proof.
  intros Hwf. pose proof (entries_length c Hwf) as Hlen.
  split; intros Hnil; rewrite Hnil in Hlen; simpl in Hlen.
  - by apply nil_length_inv.
  - by apply nil_length_inv.
Qed.

(** The keys of the entries are distinct. *)
Lemma WF_keys_NoDup c : WF c → NoDup (key <$> entries c).
Proof.
  intros Hwf. pose proof (wf_list c Hwf) as Hall.
  pose proof (wf_linked c Hwf) as Hnd. unfold entries.
  induction Hnd as [|e l Hnotin Hnd IH]; [constructor|]. simpl.
  destruct (Hall e) as (en & He & Hit); [left|]. rewrite He. simpl.
  constructor.
  - intros Hin. apply list_elem_of_fmap in Hin as (en' & Hk & Hin).
    apply list_elem_of_omap in Hin as (e' & He'in & He').
    destruct (Hall e') as (en2 & He2 & Hit2); [by right|].
    rewrite He' in He2. injection He2 as <-.
    rewrite Hk, Hit2 in Hit. injection Hit as ->. done.
  - apply IH. intros x Hx. apply Hall. by right.
Qed.

(** [removeElement] on an element whose entry is [en]. *)
Lemma removeElement_eq c e en :
  heap c !! e = Some en →
  removeElement e c = Done (drop_back c (List_.Remove e (evictList c)) en).
Proof.
  intros He. unfold removeElement. simpl. rewrite He. simpl.
  unfold fire, drop_back, world_after, weight.
  destruct c as [lim sz l it [f|] acc h w]; reflexivity.
Qed.

Lemma WF_drop c l1 e l2 en :
  WF c → evictList c = l1 ++ e :: l2 → heap c !! e = Some en →
  WF (drop_back c (l1 ++ l2) en).
Proof.
  intros Hwf Hl He.
  pose proof (wf_linked c Hwf) as Hnd. rewrite Hl in Hnd.
  assert (e ∉ l1 ++ l2) as Hnotin.
  { apply NoDup_app in Hnd as (_ & Hdis & Hnd2).
    apply NoDup_cons in Hnd2 as [He2 _].
    intros [Hin|Hin]%elem_of_app; [|done]. apply (Hdis _ Hin). left. }
  assert (items c !! key en = Some e) as Hit.
  { destruct (wf_list c Hwf e) as (en' & He' & Hit); [rewrite Hl; set_solver|].
    rewrite He in He'. by injection He' as <-. }
  assert (∀ x, x ∈ l1 ++ l2 → x ∈ evictList c) as Hsub.
  { intros x. rewrite Hl, !elem_of_app, elem_of_cons. tauto. }
  split; simpl.
  - apply NoDup_app in Hnd as (Hnd1 & Hdis & Hnd2).
    apply NoDup_cons in Hnd2 as [_ Hnd2].
    apply NoDup_app. split_and!; [done| |done].
    intros x Hx1 Hx2. apply (Hdis x Hx1). by right.
  - intros x Hx. destruct (wf_list c Hwf x (Hsub x Hx)) as (en' & He' & Hit').
    exists en'. split; [done|]. rewrite lookup_delete_ne; [done|].
    intros Heq. rewrite Heq, Hit' in Hit. injection Hit as ->. done.
  - intros k x Hx. apply lookup_delete_Some in Hx as [Hne Hx].
    destruct (wf_items c Hwf k x Hx) as (Hin & en' & He' & Hk).
    split; [|by exists en'].
    rewrite Hl in Hin. apply elem_of_app in Hin as [Hin|Hin]; [set_solver|].
    apply elem_of_cons in Hin as [->|Hin]; [|set_solver].
    rewrite He in He'. injection He' as <-. done.
  - rewrite map_size_delete_Some by eauto.
    rewrite (wf_count c Hwf), Hl, !length_app. simpl. lia.
  - unfold weight at 1. simpl. rewrite (wf_size c Hwf), wrap_sub_l. f_equal.
    unfold total_weight. rewrite (entries_split c l1 e l2 en Hl He).
    unfold entries. simpl.
    change (weight (drop_back c (l1 ++ l2) en)) with (weight c).
    rewrite omap_app, !fmap_app, fmap_cons, !sumZ_app, sumZ_cons.
    unfold weight at 2. lia.
  - apply (wf_limit c Hwf).
Qed.

Lemma WF_drop_back c l e en :
  WF c → evictList c = l ++ [e] → heap c !! e = Some en →
  WF (drop_back c l en).
Proof.
  intros Hwf Hl He. pose proof (WF_drop c l e [] en Hwf Hl He) as Hd.
  by rewrite app_nil_r in Hd.
Qed.

(** [removeOldest] on a list that is not empty, and on the empty list. *)
Lemma removeOldest_back c l e :
  WF c → evictList c = l ++ [e] →
  ∃ en, heap c !! e = Some en ∧ removeOldest c = Done (drop_back c l en).
Proof.
  intros Hwf Hl. destruct (wf_list c Hwf e) as (en & He & _).
  { rewrite Hl. apply elem_of_app. right. left. }
  exists en. split; [done|]. unfold removeOldest, List_.Back.
  rewrite Hl, last_snoc, (removeElement_eq c e en He), Hl.
  rewrite Remove_middle, app_nil_r; [done|].
  rewrite <- Hl. apply (wf_linked c Hwf).
Qed.

Lemma removeOldest_empty c : evictList c = [] → removeOldest c = Done c.
Proof. intros Hl. unfold removeOldest, List_.Back. by rewrite Hl. Qed.

(** *** The loop of [evictIfNeeded] *)

(** What the loop returns is an eviction run as described. *)
Lemma evict_loop_sound fuel c c' :
  WF c → evict_loop fuel c = Done c' → ∃ evs, evicts c evs c'.
Proof.
  revert c. induction fuel as [|fuel IH]; intros c Hwf; simpl.
  - case_decide as Hgt; [done|]. intros [= <-]. exists []. constructor. lia.
  - case_decide as Hgt.
    + destruct (evictList c) as [|x l0] eqn:Hl using rev_ind.
      * rewrite (removeOldest_empty c Hl). simpl. by apply IH.
      * clear IHl0.
        destruct (removeOldest_back c l0 x Hwf Hl) as (en & He & ->). simpl.
        intros Hrun. apply IH in Hrun as [evs Hevs].
        -- exists (en :: evs). eapply evicts_back; eauto. lia.
        -- by eapply WF_drop_back.
    + intros [= <-]. exists []. constructor. lia.
Qed.

(** With an empty list and a size above the limit the loop never ends. *)
Lemma evict_loop_stuck fuel c :
  evictList c = [] → limit c < size c → evict_loop fuel c = OutOfFuel.
Proof.
  intros Hl Hgt. induction fuel as [|fuel IH]; simpl.
  - by rewrite decide_True by lia.
  - rewrite decide_True by lia. by rewrite (removeOldest_empty c Hl).
Qed.

(** An empty well-formed cache has size zero. *)
Lemma WF_empty_size c : WF c → evictList c = [] → size c = 0.
Proof.
  intros Hwf Hl. rewrite (wf_size c Hwf). unfold total_weight, entries.
  by rewrite Hl.
Qed.

(** The loop ends within as many iterations as the list has elements. *)
Lemma evict_loop_terminates fuel c :
  WF c → 0 ≤ limit c → (length (evictList c) ≤ fuel)%nat →
  ∃ c', evict_loop fuel c = Done c'.
Proof.
  revert c. induction fuel as [|fuel IH]; intros c Hwf Hlim Hlen.
  - assert (evictList c = []) as Hl by (apply nil_length_inv; lia).
    simpl. rewrite decide_False; [by eexists|].
    rewrite (WF_empty_size c Hwf Hl). lia.
  - simpl. case_decide as Hgt; [|by eexists].
    destruct (evictList c) as [|x l0] eqn:Hl using rev_ind.
    + rewrite (WF_empty_size c Hwf Hl) in Hgt. lia.
    + clear IHl0.
      destruct (removeOldest_back c l0 x Hwf Hl) as (en & He & ->). simpl.
      apply IH; simpl; [by eapply WF_drop_back|done|].
      rewrite length_app in Hlen. simpl in Hlen. lia.
Qed.

(** More fuel does not change what the loop returns. *)
Lemma evict_loop_fuel fuel fuel' c c' :
  evict_loop fuel c = Done c' → (fuel ≤ fuel')%nat →
  evict_loop fuel' c = Done c'.
Proof.
  revert fuel' c. induction fuel as [|fuel IH]; intros fuel' c; simpl.
  - case_decide as Hgt; [done|]. intros [= <-] _.
    destruct fuel'; simpl; by rewrite decide_False.
  - case_decide as Hgt.
    + intros Hrun Hle. destruct fuel' as [|fuel']; [lia|]. simpl.
      rewrite decide_True by done.
      destruct (removeOldest c) as [c1| |]; simpl in *; [|done|done].
      apply IH; [done|lia].
    + intros [= <-] _. destruct fuel'; simpl; by rewrite decide_False.
Qed.

Lemma evict_loop_det fuel1 fuel2 c c1 c2 :
  evict_loop fuel1 c = Done c1 → evict_loop fuel2 c = Done c2 → c1 = c2.
Proof.
  intros H1 H2.
  apply (evict_loop_fuel _ (fuel1 `max` fuel2)%nat) in H1; [|lia].
  apply (evict_loop_fuel _ (fuel1 `max` fuel2)%nat) in H2; [|lia].
  congruence.
Qed.

(** *** What an eviction run does to the cache *)

Lemma fire_all_cons (f : option (EvictCallback K V Obs)) en evs (w : Obs) :
  fire_all f (en :: evs) w
  = fire_all f evs (match f with
                    | Some g => g (key en) (value en) w
                    | None => w
                    end).
Proof. reflexivity. Qed.

Lemma removed_back_facts c evs c' :
  removed_back c evs c' → WF c →
  WF c' ∧
  limit c' = limit c ∧ heap c' = heap c ∧
  onEvict c' = onEvict c ∧ onAccount c' = onAccount c ∧
  evictList c = evictList c' ++ drop (length (evictList c')) (evictList c) ∧
  length (evictList c) = (length (evictList c') + length evs)%nat ∧
  entries c = entries c' ++ reverse evs ∧
  items c' = foldl (λ m en, delete (key en) m) (items c) evs ∧
  world c' = fire_all (onEvict c) evs (world c) ∧
  size c' = wrap (size c - sumZ (weight c <$> evs)).
Proof.
  induction 1 as [c|c l e en evs c' Hl He Hrun IH]; intros Hwf.
  - split_and!; try done.
    + by rewrite drop_all, app_nil_r.
    + by rewrite app_nil_r.
    + simpl. rewrite Z.sub_0_r. rewrite (wf_size c Hwf).
      symmetry. apply wrap_id, wrap_is_int.
  - destruct IH as (Hwf' & Hlim & Hheap & Hev & Hacc & Hlist & Hlen & Hent
                    & Hit & Hw & Hsz).
    { by eapply WF_drop_back. }
    simpl in Hlim, Hheap, Hev, Hacc, Hlist, Hlen, Hit, Hw, Hsz.
    split_and!; try done.
    + assert (length (evictList c') ≤ length l)%nat as Hn.
      { rewrite Hlist, length_app. lia. }
      rewrite Hl, drop_app_le, app_assoc, <- Hlist by done. done.
    + rewrite Hl, length_app, Hlen. simpl. lia.
    + rewrite reverse_cons, app_assoc, <- Hent.
      unfold entries at 1. rewrite Hl, omap_app. simpl. by rewrite He.
    + rewrite Hsz, wrap_sub_l. f_equal.
      change (weight (drop_back c l en)) with (weight c).
      rewrite fmap_cons, sumZ_cons. lia.
Qed.

Lemma evicts_removed_back c evs c' :
  evicts c evs c' → removed_back c evs c' ∧ size c' ≤ limit c'.
Proof.
  induction 1 as [c Hle|c l e en evs c' Hgt Hl He Hrun [IH1 IH2]].
  - split; [constructor|done].
  - split; [|done]. by eapply removed_next.
Qed.

Lemma evicts_nil_iff c evs c' :
  evicts c evs c' → evs = [] ↔ size c ≤ limit c.
Proof. destruct 1; split; (done || lia). Qed.

(** *** The first part of [Add] *)

Lemma filter_all {A} (P : A → Prop) `{∀ x, Decision (P x)} (l : list A) :
  (∀ x, x ∈ l → P x) → filter P l = l.
Proof.
  induction l as [|x l IH]; [done|]. intros Hall.
  rewrite filter_cons_True by (apply Hall; left).
  f_equal. apply IH. intros y Hy. apply Hall. by right.
Qed.

Lemma omap_insert_absent (h : gmap Element (entry K V)) e en
    (l : list Element) :
  e ∉ l → omap (λ x, <[e := en]> h !! x) l = omap (λ x, h !! x) l.
Proof.
  induction l as [|x l IH]; [done|]. intros Hx.
  apply not_elem_of_cons in Hx as [Hne Hl]. simpl.
  rewrite lookup_insert_ne by done.
  destruct (h !! x); [f_equal|]; by apply IH.
Qed.

Lemma Add_place_present c k v ent :
  WF c → items c !! k = Some ent →
  ∃ old l1 l2,
    heap c !! ent = Some (Entry k old) ∧
    evictList c = l1 ++ ent :: l2 ∧
    Add_place k v c = Done (updated c k v ent old l1 l2).
Proof.
  intros Hwf Hit.
  destruct (wf_items c Hwf k ent Hit) as (Hin & [k' old] & He & Hk).
  simpl in Hk. subst k'.
  apply list_elem_of_split in Hin as (l1 & l2 & Hl).
  exists old, l1, l2. split_and!; [done..|].
  unfold Add_place. rewrite Hit. simpl. rewrite He. simpl.
  unfold updated. rewrite Hl, MoveToFront_split, wrap_add_l.
  - replace (size c - onAccount c k old + onAccount c k v)
      with (size c + (onAccount c k v - onAccount c k old)) by lia.
    reflexivity.
  - rewrite <- Hl. apply (wf_linked c Hwf).
Qed.

Lemma Add_place_absent c k v :
  items c !! k = None → Add_place k v c = Done (inserted c k v).
Proof. intros Hit. unfold Add_place. by rewrite Hit. Qed.

Lemma entries_updated c k v ent old l1 l2 :
  WF c → evictList c = l1 ++ ent :: l2 →
  entries (updated c k v ent old l1 l2)
  = Entry k v :: omap (λ x, heap c !! x) (l1 ++ l2).
Proof.
  intros Hwf Hl. pose proof (wf_linked c Hwf) as Hnd. rewrite Hl in Hnd.
  unfold entries. simpl. rewrite lookup_insert_eq. f_equal.
  apply omap_insert_absent.
  apply NoDup_app in Hnd as (_ & Hdis & Hnd2).
  apply NoDup_cons in Hnd2 as [He2 _].
  intros [Hin|Hin]%elem_of_app; [|done]. apply (Hdis _ Hin). left.
Qed.

Lemma fresh_unlinked c : WF c → fresh (dom (heap c)) ∉ evictList c.
Proof.
  intros Hwf Hin. destruct (wf_list c Hwf _ Hin) as (en & He & _).
  apply (is_fresh (dom (heap c))). apply elem_of_dom. eauto.
Qed.

Lemma entries_inserted c k v :
  WF c → entries (inserted c k v) = Entry k v :: entries c.
Proof.
  intros Hwf. unfold entries. simpl. rewrite lookup_insert_eq. f_equal.
  apply omap_insert_absent, fresh_unlinked, Hwf.
Qed.

Lemma WF_updated c k v ent old l1 l2 :
  WF c → items c !! k = Some ent → heap c !! ent = Some (Entry k old) →
  evictList c = l1 ++ ent :: l2 →
  WF (updated c k v ent old l1 l2).
Proof.
  intros Hwf Hit He Hl.
  pose proof (wf_linked c Hwf) as Hnd. rewrite Hl in Hnd.
  assert (ent ∉ l1 ++ l2) as Hnotin.
  { apply NoDup_app in Hnd as (_ & Hdis & Hnd2).
    apply NoDup_cons in Hnd2 as [He2 _].
    intros [Hin|Hin]%elem_of_app; [|done]. apply (Hdis _ Hin). left. }
  assert (∀ x, x ∈ ent :: l1 ++ l2 ↔ x ∈ evictList c) as Hsame.
  { intros x. rewrite Hl, elem_of_cons, !elem_of_app, elem_of_cons. tauto. }
  split.
  - simpl. apply NoDup_cons. split; [done|].
    apply NoDup_app in Hnd as (Hnd1 & Hdis & Hnd2).
    apply NoDup_cons in Hnd2 as [_ Hnd2].
    apply NoDup_app. split_and!; [done| |done].
    intros x Hx1 Hx2. apply (Hdis x Hx1). by right.
  - simpl. intros x Hx. destruct (decide (x = ent)) as [->|Hne].
    + exists (Entry k v). by rewrite lookup_insert_eq.
    + rewrite lookup_insert_ne by done. apply (wf_list c Hwf), Hsame, Hx.
  - simpl. intros k' x Hx.
    destruct (wf_items c Hwf k' x Hx) as (Hin & en' & He' & Hk').
    split; [by apply Hsame|]. destruct (decide (x = ent)) as [->|Hne].
    + exists (Entry k v). rewrite lookup_insert_eq. split; [done|].
      rewrite He in He'. injection He' as <-. done.
    + exists en'. by rewrite lookup_insert_ne.
  - simpl. rewrite (wf_count c Hwf), Hl, !length_app. simpl. lia.
  - change (size (updated c k v ent old l1 l2))
      with (wrap (size c + (onAccount c k v - onAccount c k old))).
    rewrite (wf_size c Hwf), wrap_add_l. f_equal.
    unfold total_weight.
    rewrite (entries_updated c k v ent old l1 l2 Hwf Hl).
    rewrite (entries_split c l1 ent l2 _ Hl He).
    change (weight (updated c k v ent old l1 l2)) with (weight c).
    rewrite omap_app, fmap_cons, !fmap_app, fmap_cons, sumZ_cons, !sumZ_app,
      sumZ_cons.
    rewrite !weight_Entry. lia.
  - apply (wf_limit c Hwf).
Qed.

Lemma WF_inserted c k v :
  WF c → items c !! k = None → WF (inserted c k v).
Proof.
  intros Hwf Hit. pose proof (fresh_unlinked c Hwf) as Hfresh.
  set (ent := fresh (dom (heap c))) in *.
  split.
  - simpl. apply NoDup_cons. split; [done|]. apply (wf_linked c Hwf).
  - simpl. fold ent. intros x [->|Hx]%elem_of_cons.
    + exists (Entry k v). by rewrite !lookup_insert_eq.
    + destruct (wf_list c Hwf x Hx) as (en & He & Hit').
      exists en. split.
      * rewrite lookup_insert_ne; [done|]. intros Heq. by rewrite Heq in Hfresh.
      * rewrite lookup_insert_ne; [done|]. intros Heq.
        rewrite Heq, Hit' in Hit. done.
  - simpl. fold ent. intros k' x Hx.
    apply lookup_insert_Some in Hx as [[<- <-]|[Hne Hx]].
    + split; [left|]. exists (Entry k v). by rewrite lookup_insert_eq.
    + destruct (wf_items c Hwf k' x Hx) as (Hin & en & He & Hk).
      split; [by right|]. exists en. rewrite lookup_insert_ne; [done|].
      intros Heq. by rewrite Heq in Hfresh.
  - simpl. rewrite map_size_insert_None by done.
    by rewrite (wf_count c Hwf).
  - change (size (inserted c k v)) with (wrap (size c + onAccount c k v)).
    rewrite (wf_size c Hwf), wrap_add_l. f_equal.
    unfold total_weight. rewrite (entries_inserted c k v Hwf).
    change (weight (inserted c k v)) with (weight c).
    rewrite fmap_cons, sumZ_cons, weight_Entry. lia.
  - apply (wf_limit c Hwf).
Qed.

(** The first part of [Add] returns, keeps the invariant and the limit,
    and leaves the entry of [k] at the front of the list. *)
Lemma Add_place_WF c k v :
  WF c →
  ∃ c1 rest, Add_place k v c = Done c1 ∧ WF c1 ∧
    limit c1 = limit c ∧ onEvict c1 = onEvict c ∧
    onAccount c1 = onAccount c ∧ world c1 = world c ∧
    (length (evictList c1) ≤ S (length (evictList c)))%nat ∧
    entries c1 = Entry k v :: rest ∧
    rest = filter (λ en, key en ≠ k) (entries c).
Proof.
  intros Hwf. destruct (items c !! k) as [ent|] eqn:Hit.
  - destruct (Add_place_present c k v ent Hwf Hit)
      as (old & l1 & l2 & He & Hl & Hadd).
    exists (updated c k v ent old l1 l2), (omap (λ x, heap c !! x) (l1 ++ l2)).
    split_and!; try done.
    + by apply WF_updated.
    + rewrite Hl, !length_app. simpl. rewrite length_app. lia.
    + by apply entries_updated.
    + pose proof (WF_keys_NoDup c Hwf) as Hnd.
      rewrite (entries_split c l1 ent l2 _ Hl He) in Hnd |- *.
      rewrite fmap_app, fmap_cons in Hnd.
      apply NoDup_app in Hnd as (_ & Hdis & Hnd2).
      apply NoDup_cons in Hnd2 as [Hk2 _]. simpl in Hdis, Hk2.
      rewrite filter_app, filter_cons_False by (simpl; tauto).
      rewrite omap_app. f_equal; symmetry; apply filter_all.
      * intros en Hen Heq. apply (Hdis (key en)).
        -- apply list_elem_of_fmap. eauto.
        -- rewrite Heq. left.
      * intros en Hen Heq. apply Hk2. rewrite <- Heq.
        apply list_elem_of_fmap. eauto.
  - rewrite (Add_place_absent c k v Hit). exists (inserted c k v), (entries c).
    split_and!; try done.
    + by apply WF_inserted.
    + by apply entries_inserted.
    + symmetry. apply filter_all. intros en Hen Heq.
      apply list_elem_of_omap in Hen as (e & Hin & He).
      destruct (wf_list c Hwf e Hin) as (en' & He' & Hit').
      rewrite He in He'. injection He' as <-.
      rewrite Heq, Hit in Hit'. done.
Qed.

(** *** [Add] *)

Lemma Add_sound fuel c k v b c' :
  WF c → Add fuel k v c = Done (b, c') →
  ∃ c1 evs, Add_place k v c = Done c1 ∧ WF c1 ∧ evicts c1 evs c' ∧
    b = bool_decide (size c1 > limit c1).
Proof.
  intros Hwf Hadd.
  destruct (Add_place_WF c k v Hwf) as (c1 & rest & Hp & Hwf1 & _).
  unfold Add, evictIfNeeded in Hadd. rewrite Hp in Hadd. simpl in Hadd.
  destruct (evict_loop fuel c1) as [c2| |] eqn:Hloop; simpl in Hadd;
    [|done|done].
  injection Hadd as <- <-.
  destruct (evict_loop_sound fuel c1 c2 Hwf1 Hloop) as [evs Hevs].
  by exists c1, evs.
Qed.

Lemma Add_terminates c k v :
  WF c → 0 ≤ limit c →
  ∃ b c', ∀ fuel, (length (evictList c) < fuel)%nat →
    Add fuel k v c = Done (b, c').
Proof.
  intros Hwf Hlim.
  destruct (Add_place_WF c k v Hwf)
    as (c1 & rest & Hp & Hwf1 & Hlim1 & _ & _ & _ & Hlen & _).
  destruct (evict_loop_terminates (length (evictList c1)) c1)
    as [c' Hloop]; [done|lia|done|].
  exists (bool_decide (size c1 > limit c1)), c'. intros fuel Hfuel.
  unfold Add, evictIfNeeded. rewrite Hp. simpl.
  rewrite (evict_loop_fuel _ fuel _ _ Hloop) by lia. done.
Qed.

Lemma Add_det fuel1 fuel2 c k v r1 r2 :
  Add fuel1 k v c = Done r1 → Add fuel2 k v c = Done r2 → r1 = r2.
Proof.
  unfold Add, evictIfNeeded.
  destruct (Add_place k v c) as [c1| |]; simpl; [|done|done].
  destruct (evict_loop fuel1 c1) as [c2| |] eqn:H1; simpl; [|done|done].
  destruct (evict_loop fuel2 c1) as [c3| |] eqn:H2; simpl; [|done|done].
  intros [= <-] [= <-]. f_equal. by eapply evict_loop_det.
Qed.

(** *** [Remove] and [RemoveOldest] *)

Lemma Remove_absent c k : items c !! k = None → Remove k c = Done (false, c).
Proof. intros Hit. unfold Remove. by rewrite Hit. Qed.

Lemma Remove_present c k ent :
  WF c → items c !! k = Some ent →
  ∃ v l1 l2,
    heap c !! ent = Some (Entry k v) ∧
    evictList c = l1 ++ ent :: l2 ∧
    Remove k c = Done (true, drop_back c (l1 ++ l2) (Entry k v)).
Proof.
  intros Hwf Hit.
  destruct (wf_items c Hwf k ent Hit) as (Hin & [k' v] & He & Hk).
  simpl in Hk. subst k'.
  apply list_elem_of_split in Hin as (l1 & l2 & Hl).
  exists v, l1, l2. split_and!; [done..|].
  unfold Remove. rewrite Hit, (removeElement_eq c ent _ He), Hl.
  rewrite Remove_middle; [done|]. rewrite <- Hl. apply (wf_linked c Hwf).
Qed.

Lemma RemoveOldest_empty c :
  evictList c = [] → RemoveOldest c = Done ((None, None, false), c).
Proof. intros Hl. unfold RemoveOldest, List_.Back. by rewrite Hl. Qed.

Lemma RemoveOldest_back c l e :
  WF c → evictList c = l ++ [e] →
  ∃ en, heap c !! e = Some en ∧
    RemoveOldest c
    = Done ((Some (key en), Some (value en), true), drop_back c l en).
Proof.
  intros Hwf Hl. destruct (wf_list c Hwf e) as (en & He & _).
  { rewrite Hl. apply elem_of_app. right. left. }
  exists en. split; [done|]. unfold RemoveOldest, List_.Back.
  rewrite Hl, last_snoc, (removeElement_eq c e en He), Hl.
  rewrite Remove_middle, app_nil_r.
  - simpl. by rewrite He.
  - rewrite <- Hl. apply (wf_linked c Hwf).
Qed.

(** *** [Resize] *)

Lemma Resize_loop_spec n c :
  WF c →
  ∃ evs c', Resize_loop n c = Done c' ∧ removed_back c evs c' ∧
    length evs = (n `min` length (evictList c))%nat.
Proof.
  revert c. induction n as [|n IH]; intros c Hwf.
  - exists [], c. split_and!; [done|constructor|done].
  - simpl. destruct (evictList c) as [|x l0] eqn:Hl using rev_ind.
    + rewrite (removeOldest_empty c Hl). simpl.
      destruct (IH c Hwf) as (evs & c' & Hrun & Hrem & Hlen).
      exists evs, c'. split_and!; [done..|]. rewrite Hlen, Hl. simpl. lia.
    + clear IHl0.
      destruct (removeOldest_back c l0 x Hwf Hl) as (en & He & ->). simpl.
      destruct (IH (drop_back c l0 en)) as (evs & c' & Hrun & Hrem & Hlen).
      { by eapply WF_drop_back. }
      exists (en :: evs), c'. split_and!; [done| |].
      * by eapply removed_next.
      * simpl in Hlen. cbn [length]. rewrite Hlen, length_app.
        cbn [length]. replace (length l0 + 1)%nat with (S (length l0)) by lia.
        lia.
Qed.

Lemma WF_set_limit c sz : WF c → is_int sz → WF (set_limit sz c).
Proof. intros [] Hsz. by split. Qed.

Lemma Resize_spec c sz :
  WF c →
  ∃ evs c',
    let diff := Z.max (wrap (Len c - sz)) 0 in
    Resize sz c = Done (diff, set_limit sz c') ∧
    removed_back c evs c' ∧
    length evs = (Z.to_nat diff `min` length (evictList c))%nat.
Proof.
  intros Hwf. unfold Resize.
  set (d := wrap (Len c - sz)).
  assert ((if decide (d < 0) then 0 else d) = Z.max d 0) as ->.
  { case_decide; lia. }
  destruct (Resize_loop_spec (Z.to_nat (Z.max d 0)) c Hwf)
    as (evs & c' & -> & Hrem & Hlen).
  by exists evs, c'.
Qed.

(** *** [Purge] *)

Lemma Purge_visit_eq c (kv : K * Element) en :
  heap c !! kv.2 = Some en →
  Purge_visit c kv
  = Done (mkLRU (limit c) (size c) (evictList c) (delete kv.1 (items c))
            (onEvict c) (onAccount c) (heap c)
            (world_after c (Entry kv.1 (value en)))).
Proof.
  intros Hen. unfold Purge_visit, world_after.
  destruct c as [lim sz l it [f|] acc h w]; simpl in *; [|done].
  by rewrite Hen.
Qed.

Lemma Purge_range_eq order c :
  (∀ kv, kv ∈ order → is_Some (heap c !! kv.2)) →
  Purge_range order c
  = Done (mkLRU (limit c) (size c) (evictList c)
            (foldl (λ m kv, delete kv.1 m) (items c) order)
            (onEvict c) (onAccount c) (heap c)
            (fire_all (onEvict c) (purge_calls c order) (world c))).
Proof.
  revert c. induction order as [|kv order IH]; intros c Hall.
  - by destruct c.
  - destruct (Hall kv) as [en Hen]; [left|].
    assert (∀ kv', kv' ∈ order → is_Some (heap c !! kv'.2)) as Hall'.
    { intros kv' Hin. apply Hall. by right. }
    cbn [Purge_range]. rewrite (Purge_visit_eq c kv en Hen).
    rewrite bind_Done, IH by done.
    unfold purge_calls. simpl. rewrite Hen. done.
Qed.

Lemma lookup_foldl_delete (m : gmap K Element) (order : list (K * Element))
    (k : K) :
  foldl (λ m kv, delete kv.1 m) m order !! k
  = if decide (k ∈ order.*1) then None else m !! k.
Proof.
  revert m. induction order as [|kv order IH]; intros m.
  - rewrite decide_False; [done|]. apply not_elem_of_nil.
  - rewrite fmap_cons. cbn [foldl]. rewrite IH.
    case_decide as Hin; case_decide as Hin'; try done.
    + exfalso. apply Hin'. by right.
    + apply elem_of_cons in Hin' as [->|?]; [apply lookup_delete_eq|done].
    + apply lookup_delete_ne. intros Heq. apply Hin'. rewrite Heq. left.
Qed.

Lemma Purge_items_empty c order :
  iteration_order order c →
  foldl (λ m kv, delete kv.1 m) (items c) order = ∅.
Proof.
  intros Hord. apply map_eq. intros k.
  rewrite lookup_foldl_delete, lookup_empty. case_decide as Hin; [done|].
  destruct (items c !! k) as [e|] eqn:Hit; [|done]. exfalso. apply Hin.
  apply list_elem_of_fmap. exists (k, e). split; [done|].
  rewrite Hord. by apply elem_of_map_to_list.
Qed.

(** The index, as a list of pairs in the order of the list. *)
Lemma index_listed c :
  WF c →
  omap (λ e, (λ en, (key en, e)) <$> heap c !! e) (evictList c)
  ≡ₚ map_to_list (items c).
Proof.
  intros Hwf. apply NoDup_Permutation.
  - apply (NoDup_fmap_1 snd).
    assert (snd <$> omap (λ e, (λ en, (key en, e)) <$> heap c !! e)
                      (evictList c) = evictList c) as ->;
      [|apply (wf_linked c Hwf)].
    pose proof (wf_list c Hwf) as Hall.
    induction (evictList c) as [|e l IH]; [done|]. simpl.
    destruct (Hall e) as (en & -> & _); [left|]. simpl. f_equal.
    apply IH. intros x Hx. apply Hall. by right.
  - apply NoDup_map_to_list.
  - intros [k e]. rewrite list_elem_of_omap, elem_of_map_to_list. split.
    + intros (e' & Hin & Heq).
      destruct (wf_list c Hwf e' Hin) as (en & He & Hit).
      rewrite He in Heq. simpl in Heq. by injection Heq as <- <-.
    + intros Hit. destruct (wf_items c Hwf k e Hit) as (Hin & en & He & Hk).
      exists e. split; [done|]. rewrite He. simpl. by rewrite Hk.
Qed.

Lemma purge_calls_entries c order :
  WF c → iteration_order order c → purge_calls c order ≡ₚ entries c.
Proof.
  intros Hwf Hord. unfold purge_calls.
  rewrite Hord, <- (index_listed c Hwf).
  pose proof (wf_list c Hwf) as Hall. unfold entries.
  induction (evictList c) as [|e l IH]; [done|]. simpl.
  destruct (Hall e) as ([k v] & He & _); [left|]. rewrite He. simpl.
  rewrite He. simpl. constructor. apply IH. intros x Hx. apply Hall. by right.
Qed.

Lemma Purge_eq c order :
  WF c → iteration_order order c → Purge order c = Done (purged c order).
Proof.
  intros Hwf Hord. unfold Purge. rewrite Purge_range_eq; [done|].
  intros [k e] Hin. rewrite Hord in Hin. apply elem_of_map_to_list in Hin.
  destruct (wf_items c Hwf k e Hin) as (_ & en & He & _). simpl. eauto.
Qed.

Lemma WF_purged c order :
  WF c → iteration_order order c → WF (purged c order).
Proof.
  intros Hwf Hord. unfold purged. rewrite (Purge_items_empty c order Hord).
  split; simpl; try done.
  - constructor.
  - intros e Hin. by apply elem_of_nil in Hin.
  - apply (wf_limit c Hwf).
Qed.

(** *** [Get], [Peek] and [Keys] *)

Lemma Get_absent c k : items c !! k = None → Get k c = ((None, false), c).
Proof. intros Hit. unfold Get. by rewrite Hit. Qed.

Lemma Get_present c k ent :
  WF c → items c !! k = Some ent →
  ∃ v l1 l2,
    heap c !! ent = Some (Entry k v) ∧
    evictList c = l1 ++ ent :: l2 ∧
    Get k c = ((Some v, true), set_evictList (ent :: l1 ++ l2) c).
Proof.
  intros Hwf Hit.
  destruct (wf_items c Hwf k ent Hit) as (Hin & [k' v] & He & Hk).
  simpl in Hk. subst k'.
  apply list_elem_of_split in Hin as (l1 & l2 & Hl).
  exists v, l1, l2. split_and!; [done..|].
  unfold Get. rewrite Hit. simpl. rewrite He. simpl.
  rewrite Hl, MoveToFront_split; [done|].
  rewrite <- Hl. apply (wf_linked c Hwf).
Qed.

Lemma Peek_absent c k :
  items c !! k = None → Peek k c = Done ((None, false), c).
Proof. intros Hit. unfold Peek. by rewrite Hit. Qed.

Lemma Peek_present c k ent :
  WF c → items c !! k = Some ent →
  ∃ v, heap c !! ent = Some (Entry k v) ∧ Peek k c = Done ((Some v, true), c).
Proof.
  intros Hwf Hit.
  destruct (wf_items c Hwf k ent Hit) as (Hin & [k' v] & He & Hk).
  simpl in Hk. subst k'. exists v. split; [done|].
  unfold Peek. rewrite Hit, He. done.
Qed.

Global Instance sumZ_Permutation : Proper ((≡ₚ) ==> (=)) sumZ.
Proof.
  intros l1 l2 Hp. induction Hp as [|x l1 l2 _ IH|x y l|l1 l2 l3 _ IH1 _ IH2].
  - done.
  - rewrite !sumZ_cons. lia.
  - rewrite !sumZ_cons. lia.
  - congruence.
Qed.

Lemma WF_relinked c l :
  WF c → l ≡ₚ evictList c → WF (set_evictList l c).
Proof.
  intros Hwf Hp. split; simpl.
  - rewrite Hp. apply (wf_linked c Hwf).
  - intros e He. rewrite Hp in He. by apply (wf_list c Hwf).
  - intros k e Hit. rewrite Hp. by apply (wf_items c Hwf).
  - rewrite Hp. apply (wf_count c Hwf).
  - rewrite (wf_size c Hwf). f_equal. unfold total_weight, entries. simpl.
    change (weight (set_evictList l c)) with (weight c). by rewrite Hp.
  - apply (wf_limit c Hwf).
Qed.

Lemma omap_reverse {A B} (f : A → option B) (l : list A) :
  omap f (reverse l) = reverse (omap f l).
Proof.
  induction l as [|x l IH]; [done|].
  rewrite reverse_cons, omap_app, IH. simpl.
  destruct (f x); simpl; [by rewrite reverse_cons|by rewrite app_nil_r].
Qed.

Lemma Keys_walk_spec c (ents : list Element) (filled : list (option K))
    (m : nat) :
  Forall (λ e, is_Some (heap c !! e)) ents → (length ents ≤ m)%nat →
  Keys_walk c ents (length filled) (filled ++ replicate m None)
  = Done (filled ++ (Some ∘ key <$> omap (λ e, heap c !! e) ents)
            ++ replicate (m - length ents) None).
Proof.
  revert filled m. induction ents as [|e ents IH]; intros filled m Hall Hlen.
  - simpl. by rewrite Nat.sub_0_r.
  - apply Forall_cons in Hall as [[en He] Hall]. simpl in Hlen.
    destruct m as [|m]; [lia|]. simpl. rewrite He. simpl.
    rewrite decide_True by (rewrite length_app; simpl; lia).
    replace (length filled) with (length filled + 0)%nat at 2 by lia.
    rewrite insert_app_r. cbn [list_insert insert].
    assert (filled ++ Some (key en) :: replicate m None
            = (filled ++ [Some (key en)]) ++ replicate m None) as ->.
    { by rewrite <- app_assoc. }
    replace (S (length filled)) with (length (filled ++ [Some (key en)]))
      by (rewrite length_app; simpl; lia).
    rewrite IH by (done || lia). by rewrite <- app_assoc.
Qed.

Lemma Keys_WF c : WF c → Keys c = Done (Some ∘ key <$> reverse (entries c)).
Proof.
  intros Hwf. unfold Keys.
  pose proof (Keys_walk_spec c (reverse (evictList c)) []
                (base.size (items c))) as Hwalk.
  simpl in Hwalk. rewrite Hwalk.
  - rewrite length_reverse, (wf_count c Hwf), Nat.sub_diag. simpl.
    by rewrite app_nil_r, omap_reverse.
  - apply Forall_forall. intros e He. rewrite elem_of_reverse in He.
    destruct (wf_list c Hwf e He) as (en & -> & _). eauto.
  - by rewrite length_reverse, (wf_count c Hwf).
Qed.

(** *** The constructor and the check of the invariant *)

Lemma WF_New lim acc ev h w c :
  lim ≤ max_int → NewLRUWithAccounting lim acc ev h w = Some c → WF c.
Proof.
  unfold NewLRUWithAccounting. intros Hmax. case_decide as Hlim; [done|].
  intros [= <-]. split; simpl; try done.
  - constructor.
  - intros e Hin. by apply elem_of_nil in Hin.
  - unfold is_int, min_int, int_bits. lia.
Qed.

Lemma WF_check_sound c : WF_check c = true → WF c.
Proof.
  unfold WF_check. rewrite !andb_true_iff, !bool_decide_eq_true.
  intros (((((Hnd & Hl) & Hi) & Hc) & Hs) & Hlim).
  apply Is_true_true_2, forallb_True in Hl.
  apply Is_true_true_2, forallb_True in Hi.
  rewrite Forall_forall in Hl. rewrite Forall_forall in Hi.
  split; try done.
  - intros e He. specialize (Hl e He).
    destruct (heap c !! e) as [en|]; [|done].
    exists en. split; [done|]. by apply bool_decide_unpack in Hl.
  - intros k e Hit. apply elem_of_map_to_list in Hit.
    specialize (Hi (k, e) Hit). simpl in Hi.
    apply andb_True in Hi as [Hin Hk]. apply bool_decide_unpack in Hin.
    split; [done|]. destruct (heap c !! e) as [en|]; [|done].
    exists en. split; [done|]. by apply bool_decide_unpack in Hk.
Qed.

(** *** Callbacks, weights and limits *)

Lemma NoDup_middle_notin {A} (l1 l2 : list A) (x : A) :
  NoDup (l1 ++ x :: l2) → x ∉ l1 ++ l2.
Proof.
  intros Hnd. apply NoDup_app in Hnd as (_ & Hdis & Hnd2).
  apply NoDup_cons in Hnd2 as [Hx2 _].
  intros [Hin|Hin]%elem_of_app; [|done]. apply (Hdis _ Hin). left.
Qed.

Lemma callbacks_exact_intro (before after calls : list (entry K V)) :
  NoDup (key <$> before) → before ≡ₚ after ++ calls →
  callbacks_exact before after calls.
Proof.
  intros Hnd Hp. rewrite Hp, fmap_app in Hnd.
  pose proof Hnd as Hnd0.
  apply NoDup_app in Hnd as (_ & Hdis & Hndc).
  split.
  - intros en Hin Hgone. rewrite Hp in Hin.
    apply elem_of_app in Hin as [Hin|Hin].
    { exfalso. apply Hgone. apply list_elem_of_fmap. eauto. }
    apply list_elem_of_split in Hin as (l1 & l2 & ->).
    exists l1, l2. split; [done|].
    rewrite fmap_app, fmap_cons in Hndc.
    rewrite fmap_app. by apply NoDup_middle_notin.
  - intros en Hin. split.
    + rewrite Hp. apply elem_of_app. by right.
    + intros Hk. apply (Hdis _ Hk). apply list_elem_of_fmap. eauto.
Qed.

(** With weights that fit, [size] is the total weight itself. *)
Lemma size_total c :
  WF c → weights_fit c → size c = total_weight c ∧ 0 ≤ total_weight c.
Proof.
  intros Hwf [Hpos Hmax].
  assert (0 ≤ total_weight c) as H0.
  { unfold total_weight. apply sumZ_nonneg.
    apply Forall_fmap. eapply Forall_impl; [exact Hpos|]. done. }
  split; [|done]. rewrite (wf_size c Hwf). apply wrap_id.
  unfold is_int, min_int, int_bits. lia.
Qed.

(** The front part of the entries of a cache whose weights fit. *)
Lemma weights_fit_front c c' (gone : list (entry K V)) :
  weights_fit c → onAccount c' = onAccount c →
  entries c = entries c' ++ gone →
  weights_fit c' ∧ total_weight c' ≤ total_weight c.
Proof.
  intros [Hpos Hmax] Hacc Hent. unfold weights_fit, total_weight, weight in *.
  rewrite Hacc. rewrite Hent, Forall_app in Hpos. destruct Hpos as [Hp1 Hp2].
  rewrite Hent, fmap_app, sumZ_app in Hmax.
  assert (0 ≤ sumZ ((λ en, onAccount c (key en) (value en)) <$> gone)).
  { apply sumZ_nonneg, Forall_fmap. eapply Forall_impl; [exact Hp2|]. done. }
  rewrite Hent, fmap_app, sumZ_app. split_and!; [done|lia|lia].
Qed.

(** Removing one entry from a cache within its limit. *)
Lemma drop_within_limit c l1 e l2 en :
  WF c → weights_fit c → size c ≤ limit c →
  evictList c = l1 ++ e :: l2 → heap c !! e = Some en →
  size (drop_back c (l1 ++ l2) en) ≤ limit (drop_back c (l1 ++ l2) en).
Proof.
  intros Hwf Hfit Hle Hl He.
  destruct (size_total c Hwf Hfit) as [Hsz H0].
  pose proof (WF_drop c l1 e l2 en Hwf Hl He) as Hwf'.
  destruct Hfit as [Hpos Hmax].
  rewrite (entries_split c l1 e l2 en Hl He) in Hpos.
  apply Forall_app in Hpos as [Hp1 Hp2].
  apply Forall_cons in Hp2 as [Hen Hp2].
  unfold total_weight in Hmax.
  rewrite (entries_split c l1 e l2 en Hl He), fmap_app, fmap_cons, sumZ_app,
    sumZ_cons in Hmax.
  assert (weights_fit (drop_back c (l1 ++ l2) en)
          ∧ total_weight (drop_back c (l1 ++ l2) en)
            = total_weight c - weight c en) as [Hfit' Htot].
  { unfold weights_fit, total_weight.
    change (weight (drop_back c (l1 ++ l2) en)) with (weight c).
    rewrite (entries_split c l1 e l2 en Hl He).
    unfold entries. cbn [evictList heap drop_back].
    rewrite omap_app, !fmap_app, fmap_cons, !sumZ_app, sumZ_cons in *.
    split_and!; [by apply Forall_app|lia|lia]. }
  destruct (size_total _ Hwf' Hfit') as [Hsz' _].
  rewrite Hsz', Htot. cbn [limit drop_back]. lia.
Qed.

(** X15. [Resize] to a limit that is not negative sets the limit and keeps
    the most recently used entries, at most as many as the new limit, in
    their order, whatever their weights; it returns the number of entries
    removed, on each of which the callback was called, oldest first. *)
Lemma Resize_nonneg c sz :
  WF c → 0 ≤ sz ≤ max_int → Len c ≤ max_int →
  ∃ evs c',
    Resize sz c = Done (Z.max (Len c - sz) 0, c') ∧
    limit c' = sz ∧ WF c' ∧
    Len c' = Z.min (Len c) sz ∧
    Len c - Len c' = Z.max (Len c - sz) 0 ∧
    evictList c = evictList c' ++ drop (length (evictList c')) (evictList c) ∧
    entries c = entries c' ++ reverse evs ∧
    world c' = fire_all (onEvict c) evs (world c) ∧
    size c' = wrap (size c - sumZ (weight c <$> evs)).
Proof.
  intros Hwf Hsz Hlen.
  destruct (Resize_spec c sz Hwf) as (evs & c' & Hres & Hrem & Hn).
  cbn zeta in Hres, Hn.
  assert (0 ≤ Len c) as Hlen0 by (unfold Len, List_.Len; lia).
  rewrite (wrap_id (Len c - sz)) in Hres, Hn
    by (unfold is_int, min_int, max_int, int_bits in *; lia).
  destruct (removed_back_facts c evs c' Hrem Hwf)
    as (Hwf' & Hlim & Hheap & Hev & Hacc & Hlist & Hlen' & Hent & Hit
        & Hw & Hsize).
  exists evs, (set_limit sz c'). unfold Len, List_.Len in *.
  split_and!; try done.
  - apply WF_set_limit; [done|]. unfold is_int, min_int, int_bits. lia.
  - cbn [evictList set_limit]. lia.
  - cbn [evictList set_limit]. lia.
Qed.

(** [Add] on an empty cache whose limit is negative. *)
Lemma Add_on_empty_negative c k v fuel :
  WF c → evictList c = [] → limit c < 0 → 0 ≤ onAccount c k v ≤ max_int →
  Add fuel k v c = OutOfFuel.
Proof.
  intros Hwf Hl Hlim Hw.
  assert (items c !! k = None) as Hit.
  { destruct (items c !! k) as [e|] eqn:Hit; [|done].
    destruct (wf_items c Hwf k e Hit) as [Hin _].
    rewrite Hl in Hin. by apply elem_of_nil in Hin. }
  pose proof (WF_empty_size c Hwf Hl) as Hsz.
  pose proof (WF_inserted c k v Hwf Hit) as Hwf1.
  unfold Add, evictIfNeeded. rewrite (Add_place_absent c k v Hit), bind_Done.
  assert (size (inserted c k v) = onAccount c k v) as Hsz1.
  { cbn [size inserted]. rewrite Hsz, Z.add_0_l. apply wrap_id.
    unfold is_int, min_int, int_bits. lia. }
  assert (size (inserted c k v) > limit (inserted c k v)) as Hgt.
  { rewrite Hsz1. cbn [limit inserted]. lia. }
  destruct fuel as [|fuel]; cbn [evict_loop].
  - by rewrite decide_True.
  - rewrite decide_True by done.
    destruct (removeOldest_back (inserted c k v) [] (fresh (dom (heap c))))
      as (en & He & ->); [done|by cbn; rewrite Hl|].
    rewrite bind_Done, evict_loop_stuck; [done|done|].
    cbn [heap inserted] in He. rewrite lookup_insert_eq in He.
    injection He as <-. cbn [size limit drop_back inserted].
    rewrite weight_Entry. cbn [onAccount inserted].
    rewrite Hsz, Z.add_0_l, wrap_sub_l, Z.sub_diag, wrap_0. lia.
Qed.

End invariant.

(** ** The operations of the cache *)

Section operations.
Context {K : Type} `{Countable K} {V Obs : Type}.
Implicit Types (c : LRUWithAccounting K V Obs) (e : Element) (en : entry K V).

(** X14. Every method keeps the representation invariant, which the
    constructor establishes ([WF_New]): the index and the list hold the same
    entries and [size] is the sum of their weights, as an [int]. *)
Lemma WF_kept c :
  WF c →
  (∀ fuel k v b c', Add fuel k v c = Done (b, c') → WF c') ∧
  (∀ k, WF (Get k c).2) ∧
  (∀ k b c', Remove k c = Done (b, c') → WF c') ∧
  (∀ r c', RemoveOldest c = Done (r, c') → WF c') ∧
  (∀ sz n c', is_int sz → Resize sz c = Done (n, c') → WF c') ∧
  (∀ order c', iteration_order order c → Purge order c = Done c' → WF c').
Proof.
  intros Hwf. split_and!.
  - intros fuel k v b c' Hadd.
    destruct (Add_sound fuel c k v b c' Hwf Hadd)
      as (c1 & evs & _ & Hwf1 & Hevs & _).
    destruct (evicts_removed_back c1 evs c' Hevs) as [Hrem _].
    by destruct (removed_back_facts c1 evs c' Hrem Hwf1).
  - intros k. destruct (items c !! k) as [ent|] eqn:Hit.
    + destruct (Get_present c k ent Hwf Hit) as (v & l1 & l2 & _ & Hl & ->).
      apply WF_relinked; [done|]. rewrite Hl. by rewrite Permutation_middle.
    + by rewrite (Get_absent c k Hit).
  - intros k b c' Hrm. destruct (items c !! k) as [ent|] eqn:Hit.
    + destruct (Remove_present c k ent Hwf Hit)
        as (v & l1 & l2 & He & Hl & Hrm').
      rewrite Hrm' in Hrm. injection Hrm as <- <-. by eapply WF_drop.
    + rewrite (Remove_absent c k Hit) in Hrm. by injection Hrm as <- <-.
  - intros r c' Hrm.
    destruct (evictList c) as [|x l0] eqn:Hl using rev_ind.
    + rewrite (RemoveOldest_empty c Hl) in Hrm. by injection Hrm as <- <-.
    + clear IHl0.
      destruct (RemoveOldest_back c l0 x Hwf Hl) as (en & He & Hrm').
      rewrite Hrm' in Hrm. injection Hrm as <- <-. by eapply WF_drop_back.
  - intros sz n c' Hsz Hres.
    destruct (Resize_spec c sz Hwf) as (evs & c2 & Hres' & Hrem & _).
    cbn zeta in Hres'. rewrite Hres' in Hres. injection Hres as <- <-.
    apply WF_set_limit; [|done].
    by destruct (removed_back_facts c evs c2 Hrem Hwf).
  - intros order c' Hord Hp. rewrite (Purge_eq c order Hwf Hord) in Hp.
    injection Hp as <-. by apply WF_purged.
Qed.

(** X16. [Add] on a cache whose limit is not negative: the entry is put in
    place and then the least recently used entries are removed, each with its
    weight subtracted, the callback fired and its key deleted, until the size
    is at most the limit. *)
Lemma Add_evicts_until_within_limit c (k : K) (v : V) :
  WF c → 0 ≤ limit c →
  ∃ c1 evs b c',
    Add_place k v c = Done c1 ∧
    (∀ fuel, (length (evictList c) < fuel)%nat →
       Add fuel k v c = Done (b, c')) ∧
    evicts c1 evs c' ∧
    size c' ≤ limit c' ∧
    entries c1 = entries c' ++ reverse evs ∧
    items c' = foldl (λ m en, delete (key en) m) (items c1) evs ∧
    world c' = fire_all (onEvict c1) evs (world c1) ∧
    size c' = wrap (size c1 - sumZ (weight c1 <$> evs)).
Proof.
  intros Hwf Hlim.
  destruct (Add_terminates c k v Hwf Hlim) as (b & c' & Hret).
  pose proof (Hret (S (length (evictList c))) (Nat.lt_succ_diag_r _)) as Hadd.
  destruct (Add_sound _ c k v b c' Hwf Hadd)
    as (c1 & evs & Hp & Hwf1 & Hevs & _).
  destruct (evicts_removed_back c1 evs c' Hevs) as [Hrem Hle].
  destruct (removed_back_facts c1 evs c' Hrem Hwf1)
    as (_ & _ & _ & _ & _ & _ & _ & Hent & Hit & Hw & Hsz).
  by exists c1, evs, b, c'.
Qed.

(** C8. [Remove] of a present key unlinks its element from the list and
    deletes the key from the index, subtracts the weight of the entry from
    [size], calls the callback on the entry and returns true; a second
    [Remove] of the key returns false.  [Remove] of an absent key returns
    false and the cache is the one it was. *)
Theorem Remove_present_or_absent c (k : K) :
  WF c →
  (∀ ent, items c !! k = Some ent →
     ∃ v l1 l2 c',
       heap c !! ent = Some (Entry k v) ∧
       evictList c = l1 ++ ent :: l2 ∧
       Remove k c = Done (true, c') ∧
       items c' = delete k (items c) ∧
       evictList c' = l1 ++ l2 ∧
       size c' = wrap (size c - onAccount c k v) ∧
       world c' = fire_all (onEvict c) [Entry k v] (world c) ∧
       limit c' = limit c ∧
       WF c' ∧
       Remove k c' = Done (false, c')) ∧
  (items c !! k = None → Remove k c = Done (false, c)).
Proof.
  intros Hwf. split.
  - intros ent Hit.
    destruct (Remove_present c k ent Hwf Hit) as (v & l1 & l2 & He & Hl & Hrm).
    exists v, l1, l2, (drop_back c (l1 ++ l2) (Entry k v)).
    split_and!; try done.
    + eapply WF_drop; eauto.
    + apply Remove_absent. cbn [items drop_back key]. apply lookup_delete_eq.
  - apply Remove_absent.
Qed.

(** C9. [Get] of a present key moves its entry to the most recently used
    end, which is the last place of [Keys], and changes nothing else; [Get]
    of an absent key, and [Peek] and [Contains] of any key, leave the cache
    as it was. *)
Theorem Get_promotes_Peek_Contains_do_not c (k : K) :
  WF c →
  (∀ ent, items c !! k = Some ent →
     ∃ v older newer c',
       heap c !! ent = Some (Entry k v) ∧
       Get k c = ((Some v, true), c') ∧
       Keys c = Done (older ++ Some k :: newer) ∧
       Keys c' = Done (older ++ newer ++ [Some k]) ∧
       evictList c' = List_.MoveToFront ent (evictList c) ∧
       c' = set_evictList (evictList c') c ∧
       WF c') ∧
  (items c !! k = None → Get k c = ((None, false), c)) ∧
  (∃ r, Peek k c = Done (r, c)) ∧
  (∃ b, Contains k c = (b, c)).
Proof.
  intros Hwf. split_and!.
  - intros ent Hit.
    destruct (Get_present c k ent Hwf Hit) as (v & l1 & l2 & He & Hl & Hget).
    pose proof (wf_linked c Hwf) as Hnd. rewrite Hl in Hnd.
    assert (WF (set_evictList (ent :: l1 ++ l2) c)) as Hwf'.
    { apply WF_relinked; [done|]. rewrite Hl. by rewrite Permutation_middle. }
    exists v, (Some ∘ key <$> reverse (omap (λ x, heap c !! x) l2)),
      (Some ∘ key <$> reverse (omap (λ x, heap c !! x) l1)),
      (set_evictList (ent :: l1 ++ l2) c).
    split_and!; try done.
    + rewrite (Keys_WF c Hwf), (entries_split c l1 ent l2 _ Hl He).
      by rewrite reverse_app, reverse_cons, !fmap_app, <- app_assoc.
    + rewrite (Keys_WF _ Hwf'). unfold entries.
      cbn [evictList heap set_evictList]. simpl. rewrite He.
      by rewrite reverse_cons, omap_app, reverse_app, !fmap_app, <- app_assoc.
    + cbn [evictList set_evictList].
      by rewrite Hl, List_facts.MoveToFront_split.
  - apply Get_absent.
  - destruct (items c !! k) as [ent|] eqn:Hit.
    + destruct (Peek_present c k ent Hwf Hit) as (v & _ & Hpeek). eauto.
    + rewrite (Peek_absent c k Hit). eauto.
  - unfold Contains. eauto.
Qed.

(** C7. [Purge] calls the callback once on every entry, in the order in
    which the index is visited, and leaves an empty index, an empty list and
    size zero; afterwards [Len] and [AccountingSize] are zero and [Get],
    [Peek] and [Contains] find no key. *)
Theorem Purge_empties c (order : list (K * Element)) :
  WF c → iteration_order order c →
  ∃ c',
    Purge order c = Done c' ∧
    world c' = fire_all (onEvict c) (purge_calls c order) (world c) ∧
    purge_calls c order ≡ₚ entries c ∧
    items c' = ∅ ∧ evictList c' = [] ∧ size c' = 0 ∧
    Len c' = 0 ∧ AccountingSize c' = 0 ∧
    (∀ k, Get k c' = ((None, false), c') ∧
          Peek k c' = Done ((None, false), c') ∧
          Contains k c' = (false, c')).
Proof.
  intros Hwf Hord. exists (purged c order).
  pose proof (Purge_items_empty c order Hord) as Hempty.
  split_and!; try done.
  - by apply Purge_eq.
  - by apply purge_calls_entries.
  - intros k. split_and!.
    + apply Get_absent. cbn [items purged]. by rewrite Hempty.
    + apply Peek_absent. cbn [items purged]. by rewrite Hempty.
    + unfold Contains. cbn [items purged]. by rewrite Hempty, lookup_empty.
Qed.

(** C5. [Add] of a present key, up to the eviction loop: the old weight
    is subtracted from [size], the value of the entry is replaced in place,
    the new weight is added and the element is moved to the front.  The
    size changes by the difference of the two weights, in [int] arithmetic
    (and as a number when the result is an [int]); [Len] does not change. *)
Theorem Add_update_accounting c (k : K) (v : V) (ent : Element) :
  WF c → items c !! k = Some ent →
  ∃ old c1,
    heap c !! ent = Some (Entry k old) ∧
    Add_place k v c = Done c1 ∧
    (∀ fuel, Add fuel k v c = evictIfNeeded fuel c1) ∧
    size c1 = wrap (wrap (size c - onAccount c k old) + onAccount c k v) ∧
    size c1 = wrap (size c + (onAccount c k v - onAccount c k old)) ∧
    (is_int (size c + (onAccount c k v - onAccount c k old)) →
     size c1 - size c = onAccount c k v - onAccount c k old) ∧
    heap c1 = <[ent := Entry k v]> (heap c) ∧
    evictList c1 = List_.MoveToFront ent (evictList c) ∧
    head (evictList c1) = Some ent ∧
    Len c1 = Len c ∧
    items c1 = items c ∧ limit c1 = limit c ∧ world c1 = world c ∧
    WF c1.
Proof.
  intros Hwf Hit.
  destruct (Add_place_present c k v ent Hwf Hit)
    as (old & l1 & l2 & He & Hl & Hadd).
  pose proof (wf_linked c Hwf) as Hnd. rewrite Hl in Hnd.
  exists old, (updated c k v ent old l1 l2).
  split_and!; try done.
  - intros fuel. unfold Add. by rewrite Hadd.
  - cbn [size updated]. rewrite wrap_add_l. f_equal. lia.
  - intros Hint. cbn [size updated]. rewrite wrap_id by done. lia.
  - cbn [evictList updated]. by rewrite Hl, List_facts.MoveToFront_split.
  - unfold Len, List_.Len. cbn [evictList updated].
    rewrite Hl, !length_app. cbn [length]. rewrite length_app. lia.
  - by apply WF_updated.
Qed.

(** C3. [Add] returns true exactly when the size exceeds the limit once the
    entry is in place, and exactly when its eviction loop removes an entry,
    which may be the entry just added.  [Add] does return when the limit is
    not negative. *)
Theorem Add_returns_true_iff_evicted c (k : K) (v : V) :
  WF c →
  (∀ fuel b c', Add fuel k v c = Done (b, c') →
     ∃ c1 evs,
       Add_place k v c = Done c1 ∧ evicts c1 evs c' ∧
       (b = true ↔ limit c1 < size c1) ∧
       (b = true ↔ evs ≠ []) ∧
       (b = true ↔ Len c' < Len c1)) ∧
  (0 ≤ limit c →
     ∃ b c', ∀ fuel, (length (evictList c) < fuel)%nat →
       Add fuel k v c = Done (b, c')).
Proof.
  intros Hwf. split; [|by apply Add_terminates].
  intros fuel b c' Hadd.
  destruct (Add_sound fuel c k v b c' Hwf Hadd)
    as (c1 & evs & Hp & Hwf1 & Hevs & ->).
  exists c1, evs. split_and!; try done.
  - rewrite bool_decide_eq_true. lia.
  - rewrite bool_decide_eq_true, (evicts_nil_iff c1 evs c' Hevs).
    split; [lia|]. intros Hne. destruct (decide (size c1 ≤ limit c1)); [|lia].
    done.
  - destruct (evicts_removed_back c1 evs c' Hevs) as [Hrem _].
    destruct (removed_back_facts c1 evs c' Hrem Hwf1)
      as (_ & _ & _ & _ & _ & _ & Hlen & _).
    pose proof (evicts_nil_iff c1 evs c' Hevs) as Hnil.
    rewrite bool_decide_eq_true. unfold Len, List_.Len. rewrite Hlen.
    destruct evs as [|en evs]; cbn [length].
    + split; [|lia]. intros Hgt. assert (size c1 ≤ limit c1) by by apply Hnil.
      lia.
    + split; [lia|]. intros _.
      destruct (decide (size c1 ≤ limit c1)) as [Hle|]; [|lia].
      by apply Hnil in Hle.
Qed.

(** C10. In a cache whose limit is not negative the loop of
    [evictIfNeeded] ends, within one iteration for each element of the
    list, and so does every [Add]: the loop removes entries from the back
    while the size exceeds the limit, and a cache with an empty list has
    size zero, which is at most the limit.  Under a negative limit the loop
    does not end once the list is empty. *)
Theorem evictIfNeeded_terminates c :
  WF c →
  (0 ≤ limit c →
     (∃ b c' evs,
        (∀ fuel, (length (evictList c) ≤ fuel)%nat →
           evictIfNeeded fuel c = Done (b, c')) ∧
        evicts c evs c' ∧ size c' ≤ limit c') ∧
     (∀ (k : K) (v : V), ∃ b c', ∀ fuel, (length (evictList c) < fuel)%nat →
        Add fuel k v c = Done (b, c')) ∧
     (evictList c = [] → size c = 0 ∧ size c ≤ limit c)) ∧
  (limit c < 0 → evictList c = [] →
     ∀ fuel, evictIfNeeded fuel c = OutOfFuel).
Proof.
  intros Hwf. split; [intros Hlim; split_and!|].
  - destruct (evict_loop_terminates (length (evictList c)) c Hwf Hlim)
      as [c' Hloop]; [done|].
    destruct (evict_loop_sound _ c c' Hwf Hloop) as [evs Hevs].
    exists (bool_decide (size c > limit c)), c', evs. split_and!; [|done|].
    + intros fuel Hfuel. unfold evictIfNeeded.
      by rewrite (evict_loop_fuel _ fuel _ _ Hloop Hfuel).
    + by destruct (evicts_removed_back c evs c' Hevs).
  - intros k v. by apply Add_terminates.
  - intros Hl. rewrite (WF_empty_size c Hwf Hl). done.
  - intros Hneg Hl fuel. unfold evictIfNeeded.
    rewrite evict_loop_stuck; [done|done|].
    rewrite (WF_empty_size c Hwf Hl). lia.
Qed.

Lemma removed_back_callbacks c evs c' :
  WF c → removed_back c evs c' →
  callbacks_exact (entries c) (entries c') evs ∧
  world c' = fire_all (onEvict c) evs (world c).
Proof.
  intros Hwf Hrem.
  destruct (removed_back_facts c evs c' Hrem Hwf)
    as (_ & _ & _ & _ & _ & _ & _ & Hent & _ & Hw & _).
  split; [|done]. apply callbacks_exact_intro.
  - by apply WF_keys_NoDup.
  - by rewrite Hent, reverse_Permutation.
Qed.

(** C6. On every path by which entries leave the cache ([Remove],
    [RemoveOldest], the eviction loop of [Add], [Resize], [Purge]) the
    callback is called exactly once on each entry that leaves, with its key
    and value, and on no entry whose key stays.  For [Add] the entries are
    those in place when the eviction loop starts. *)
Theorem onEvict_once_per_departure c :
  WF c →
  (∀ k, ∃ b c' calls,
     Remove k c = Done (b, c') ∧
     callbacks_exact (entries c) (entries c') calls ∧
     world c' = fire_all (onEvict c) calls (world c)) ∧
  (∃ r c' calls,
     RemoveOldest c = Done (r, c') ∧
     callbacks_exact (entries c) (entries c') calls ∧
     world c' = fire_all (onEvict c) calls (world c)) ∧
  (∀ fuel k v b c', Add fuel k v c = Done (b, c') →
     ∃ c1 calls,
       Add_place k v c = Done c1 ∧ world c1 = world c ∧
       callbacks_exact (entries c1) (entries c') calls ∧
       world c' = fire_all (onEvict c) calls (world c)) ∧
  (0 ≤ limit c →
     ∀ (k : K) (v : V), ∃ b c', ∀ fuel, (length (evictList c) < fuel)%nat →
       Add fuel k v c = Done (b, c')) ∧
  (∀ sz, ∃ n c' calls,
     Resize sz c = Done (n, c') ∧
     callbacks_exact (entries c) (entries c') calls ∧
     world c' = fire_all (onEvict c) calls (world c)) ∧
  (∀ order, iteration_order order c →
     ∃ c' calls,
       Purge order c = Done c' ∧
       callbacks_exact (entries c) (entries c') calls ∧
       world c' = fire_all (onEvict c) calls (world c)).
Proof.
  intros Hwf. split_and!.
  - intros k. destruct (items c !! k) as [ent|] eqn:Hit.
    + destruct (Remove_present c k ent Hwf Hit)
        as (v & l1 & l2 & He & Hl & Hrm).
      exists true, (drop_back c (l1 ++ l2) (Entry k v)), [Entry k v].
      split_and!; [done| |done].
      apply callbacks_exact_intro; [by apply WF_keys_NoDup|].
      rewrite (entries_split c l1 ent l2 _ Hl He). unfold entries.
      cbn [evictList heap drop_back]. rewrite omap_app.
      by rewrite <- Permutation_middle, Permutation_cons_append.
    + exists false, c, []. rewrite (Remove_absent c k Hit).
      split_and!; [done| |done].
      apply callbacks_exact_intro; [by apply WF_keys_NoDup|].
      by rewrite app_nil_r.
  - destruct (evictList c) as [|x l0] eqn:Hl using rev_ind.
    + exists (None, None, false), c, []. rewrite (RemoveOldest_empty c Hl).
      split_and!; [done| |done].
      apply callbacks_exact_intro; [by apply WF_keys_NoDup|].
      by rewrite app_nil_r.
    + clear IHl0.
      destruct (RemoveOldest_back c l0 x Hwf Hl) as (en & He & Hrm).
      exists (Some (key en), Some (value en), true), (drop_back c l0 en), [en].
      split; [done|]. apply removed_back_callbacks; [done|].
      eapply removed_next; [done..|]. constructor.
  - intros fuel k v b c' Hadd.
    destruct (Add_sound fuel c k v b c' Hwf Hadd)
      as (c1 & evs & Hp & Hwf1 & Hevs & _).
    destruct (Add_place_WF c k v Hwf)
      as (c1' & rest & Hp' & _ & _ & Hev & _ & Hw & _).
    rewrite Hp in Hp'. injection Hp' as <-.
    destruct (evicts_removed_back c1 evs c' Hevs) as [Hrem _].
    destruct (removed_back_callbacks c1 evs c' Hwf1 Hrem) as [Hex Hw'].
    exists c1, evs. rewrite <- Hev, <- Hw. done.
  - intros Hlim k v. by apply Add_terminates.
  - intros sz. destruct (Resize_spec c sz Hwf) as (evs & c' & Hres & Hrem & _).
    cbn zeta in Hres. eexists _, _, evs. split; [exact Hres|].
    by apply (removed_back_callbacks c evs c' Hwf Hrem).
  - intros order Hord. exists (purged c order), (purge_calls c order).
    split_and!; [by apply Purge_eq| |done].
    apply callbacks_exact_intro; [by apply WF_keys_NoDup|].
    unfold entries at 2. cbn [evictList purged omap list_omap].
    by rewrite (purge_calls_entries c order Hwf Hord).
Qed.

(** An entry heavier than the limit does not stay: the [Add] that puts it
    in place evicts every entry, the new one last. *)
Lemma Add_oversized c (k : K) (v : V) c1 fuel b c' :
  WF c → Add_place k v c = Done c1 → weights_fit c1 →
  limit c < onAccount c k v →
  Add fuel k v c = Done (b, c') →
  b = true ∧ evictList c' = [] ∧ items c' = ∅ ∧ size c' = 0.
Proof.
  intros Hwf Hp Hfit Hbig Hadd.
  destruct (Add_sound fuel c k v b c' Hwf Hadd)
    as (c1' & evs & Hp' & Hwf1 & Hevs & ->).
  rewrite Hp in Hp'. injection Hp' as <-.
  destruct (Add_place_WF c k v Hwf)
    as (c1' & rest & Hp' & _ & Hlim & _ & Hacc & _ & _ & Hent & _).
  rewrite Hp in Hp'. injection Hp' as <-.
  destruct (evicts_removed_back c1 evs c' Hevs) as [Hrem Hle].
  destruct (removed_back_facts c1 evs c' Hrem Hwf1)
    as (Hwf' & Hlim' & _ & _ & Hacc' & _ & _ & Hent' & _).
  destruct (weights_fit_front c1 c' (reverse evs) Hfit Hacc' Hent')
    as [Hfit' Htot].
  destruct (size_total c1 Hwf1 Hfit) as [Hsz1 _].
  destruct (size_total c' Hwf' Hfit') as [Hsz' _].
  assert (∀ c2 rest2, onAccount c2 = onAccount c → weights_fit c2 →
            entries c2 = Entry k v :: rest2 →
            onAccount c k v ≤ total_weight c2) as Hfront.
  { intros c2 rest2 Hacc2 [Hpos _] Hent2. unfold total_weight.
    rewrite Hent2 in Hpos |- *. apply Forall_cons in Hpos as [_ Hpos].
    rewrite fmap_cons, sumZ_cons. unfold weight at 1. rewrite Hacc2.
    cbn [key value].
    assert (0 ≤ sumZ (weight c2 <$> rest2)); [|lia].
    by apply sumZ_nonneg, Forall_fmap. }
  assert (evictList c' = []) as Hnil.
  { apply (entries_nil c' Hwf').
    destruct (entries c') as [|en0 rest'] eqn:Hent0; [done|]. exfalso.
    rewrite Hent in Hent'. injection Hent' as <- _.
    pose proof (Hfront c' rest' (eq_trans Hacc' Hacc) Hfit' Hent0). lia. }
  split_and!; [|done| |by apply WF_empty_size].
  - apply bool_decide_eq_true.
    pose proof (Hfront c1 rest Hacc Hfit Hent). lia.
  - apply map_eq. intros k'. rewrite lookup_empty.
    destruct (items c' !! k') as [e|] eqn:Hit; [|done].
    destruct (wf_items c' Hwf' k' e Hit) as [Hin _].
    rewrite Hnil in Hin. by apply elem_of_nil in Hin.
Qed.

(** C1, as the code has it.  After [Add] the size is at most the limit,
    with no exception: an entry heavier than the limit is evicted with all
    the others.  After [Purge] the size is zero, which is at most a limit
    that is not negative.  [Remove] and [RemoveOldest] keep the size within
    the limit when the weights are non-negative and their sum is an [int].
    ([Resize] trims by the number of entries and is not covered.) *)
Theorem size_within_limit c :
  WF c →
  (∀ fuel k v b c', Add fuel k v c = Done (b, c') → size c' ≤ limit c') ∧
  (0 ≤ limit c →
     ∀ (k : K) (v : V), ∃ b c', ∀ fuel, (length (evictList c) < fuel)%nat →
       Add fuel k v c = Done (b, c')) ∧
  (∀ fuel k v c1 b c',
     Add_place k v c = Done c1 → weights_fit c1 →
     limit c < onAccount c k v →
     Add fuel k v c = Done (b, c') →
     b = true ∧ evictList c' = [] ∧ items c' = ∅ ∧ size c' = 0) ∧
  (weights_fit c → size c ≤ limit c →
     ∀ k, ∃ b c', Remove k c = Done (b, c') ∧ size c' ≤ limit c') ∧
  (weights_fit c → size c ≤ limit c →
     ∃ r c', RemoveOldest c = Done (r, c') ∧ size c' ≤ limit c') ∧
  (0 ≤ limit c →
     ∀ order, iteration_order order c →
       ∃ c', Purge order c = Done c' ∧ size c' ≤ limit c').
Proof.
  intros Hwf. split_and!.
  - intros fuel k v b c' Hadd.
    destruct (Add_sound fuel c k v b c' Hwf Hadd)
      as (c1 & evs & _ & _ & Hevs & _).
    by destruct (evicts_removed_back c1 evs c' Hevs).
  - intros Hlim k v. by apply Add_terminates.
  - intros fuel k v c1 b c'. by apply Add_oversized.
  - intros Hfit Hle k. destruct (items c !! k) as [ent|] eqn:Hit.
    + destruct (Remove_present c k ent Hwf Hit)
        as (v & l1 & l2 & He & Hl & Hrm).
      eexists _, _. split; [exact Hrm|]. by eapply drop_within_limit.
    + exists false, c. by rewrite (Remove_absent c k Hit).
  - intros Hfit Hle.
    destruct (evictList c) as [|x l0] eqn:Hl using rev_ind.
    + exists (None, None, false), c. by rewrite (RemoveOldest_empty c Hl).
    + clear IHl0.
      destruct (RemoveOldest_back c l0 x Hwf Hl) as (en & He & Hrm).
      eexists _, _. split; [exact Hrm|].
      pose proof (drop_within_limit c l0 x [] en Hwf Hfit Hle Hl He) as Hd.
      by rewrite app_nil_r in Hd.
  - intros Hlim order Hord. exists (purged c order).
    split; [by apply Purge_eq|]. cbn [size limit purged]. done.
Qed.

End operations.

(** ** The cache as its users see it

    What the lookups, [Keys] and the oldest-entry methods return, in terms of
    the entries of the cache, and how the methods combine. *)

Section usage.
Context {K : Type} `{Countable K} {V Obs : Type}.
Implicit Types (c : LRUWithAccounting K V Obs) (e : Element) (en : entry K V).

(** The index finds exactly the entries of the list. *)
Lemma lookup_entries c (k : K) (v : V) :
  WF c →
  (∃ e, items c !! k = Some e ∧ heap c !! e = Some (Entry k v))
  ↔ Entry k v ∈ entries c.
Proof.
  intros Hwf. unfold entries. rewrite list_elem_of_omap. split.
  - intros (e & Hit & He). exists e. split; [|done].
    by destruct (wf_items c Hwf k e Hit).
  - intros (e & Hin & He). exists e. split; [|done].
    destruct (wf_list c Hwf e Hin) as (en & He' & Hit).
    rewrite He in He'. by injection He' as <-.
Qed.

Lemma lookup_None_entries c (k : K) :
  WF c → items c !! k = None ↔ k ∉ key <$> entries c.
Proof.
  intros Hwf. split.
  - intros Hit Hin. apply list_elem_of_fmap in Hin as ([k' v] & Hk & Hin).
    simpl in Hk. subst k'.
    apply (lookup_entries c k v Hwf) in Hin as (e & Hit' & _). congruence.
  - intros Hnin. destruct (items c !! k) as [e|] eqn:Hit; [|done].
    exfalso. apply Hnin.
    destruct (wf_items c Hwf k e Hit) as (_ & [k' v] & He & Hk).
    simpl in Hk. subst k'. apply list_elem_of_fmap. exists (Entry k v).
    split; [done|]. apply (lookup_entries c k v Hwf). eauto.
Qed.

(** X1. [Get], [Peek] and [Contains] agree: [Peek] returns what [Get]
    returns, [Contains] returns the flag of [Get], a key is found with the
    value [v] exactly when [(k, v)] is an entry of the cache, and it is not
    found exactly when no entry has the key. *)
Theorem lookups_agree c (k : K) :
  WF c →
  Peek k c = Done ((Get k c).1, c) ∧
  Contains k c = (((Get k c).1).2, c) ∧
  (∀ v, (Get k c).1 = (Some v, true) ↔ Entry k v ∈ entries c) ∧
  ((Get k c).1 = (None, false) ↔ k ∉ key <$> entries c).
Proof.
  intros Hwf. destruct (items c !! k) as [ent|] eqn:Hit.
  - destruct (Get_present c k ent Hwf Hit) as (v & l1 & l2 & He & Hl & Hget).
    destruct (Peek_present c k ent Hwf Hit) as (v' & He' & Hpeek).
    rewrite He in He'. injection He' as <-.
    assert (Entry k v ∈ entries c) as Hin.
    { apply (lookup_entries c k v Hwf). eauto. }
    rewrite Hget. cbn [fst snd]. split_and!.
    + done.
    + unfold Contains. rewrite Hit. done.
    + intros v'. split.
      * by intros [= <-].
      * intros Hin'. apply (lookup_entries c k v' Hwf) in Hin' as (e & Hit' & He').
        rewrite Hit in Hit'. injection Hit' as <-. rewrite He in He'.
        by injection He' as <-.
    + split; [done|]. intros Hnin. exfalso. apply Hnin.
      apply list_elem_of_fmap. by exists (Entry k v).
  - rewrite (Get_absent c k Hit), (Peek_absent c k Hit). cbn [fst snd].
    pose proof (proj1 (lookup_None_entries c k Hwf) Hit) as Hnin.
    split_and!.
    + done.
    + unfold Contains. by rewrite Hit.
    + intros v. split; [done|]. intros Hin. exfalso. apply Hnin.
      apply list_elem_of_fmap. by exists (Entry k v).
    + done.
Qed.

(** X2. [Keys] returns the keys of the entries, oldest first, each once;
    [Len] is their number, which is also the number of keys in the index, and
    [Contains] holds of exactly these keys. *)
Theorem Keys_are_the_contained_keys c :
  WF c →
  ∃ ks, Keys c = Done (Some <$> ks) ∧
        ks = reverse (key <$> entries c) ∧
        NoDup ks ∧
        Len c = Z.of_nat (length ks) ∧
        base.size (items c) = length ks ∧
        (∀ k, Contains k c = (true, c) ↔ k ∈ ks).
Proof.
  intros Hwf. exists (reverse (key <$> entries c)).
  assert (length (reverse (key <$> entries c)) = length (evictList c)) as Hlen.
  { by rewrite length_reverse, length_fmap, entries_length. }
  split_and!.
  - rewrite (Keys_WF c Hwf). f_equal.
    by rewrite list_fmap_compose, fmap_reverse.
  - done.
  - rewrite reverse_Permutation. by apply WF_keys_NoDup.
  - unfold Len, List_.Len. by rewrite Hlen.
  - by rewrite Hlen, (wf_count c Hwf).
  - intros k. rewrite elem_of_reverse. unfold Contains. split.
    + intros [= Hb]. apply bool_decide_eq_true in Hb as [e Hit].
      destruct (decide (k ∈ key <$> entries c)) as [|Hnin]; [done|].
      apply (lookup_None_entries c k Hwf) in Hnin. congruence.
    + intros Hin. f_equal. apply bool_decide_eq_true.
      destruct (items c !! k) as [e|] eqn:Hit; [by eexists|].
      by apply (lookup_None_entries c k Hwf) in Hit.
Qed.

(** X3. [GetOldest] returns the least recently used entry, the first of
    [Keys], and leaves the cache as it was; [RemoveOldest] returns the same
    entry and removes exactly it, as one call of [removeOldest] does.  On an
    empty cache both report not-found and change nothing. *)
Theorem oldest_entry c :
  WF c →
  (entries c = [] →
     GetOldest c = Done ((None, None, false), c) ∧
     RemoveOldest c = Done ((None, None, false), c)) ∧
  (∀ newer en, entries c = newer ++ [en] →
     GetOldest c = Done ((Some (key en), Some (value en), true), c) ∧
     ∃ c',
       RemoveOldest c = Done ((Some (key en), Some (value en), true), c') ∧
       removeOldest c = Done c' ∧
       entries c' = newer ∧
       Keys c = Done (Some (key en) :: (Some <$> reverse (key <$> newer))) ∧
       Keys c' = Done (Some <$> reverse (key <$> newer)) ∧
       size c' = wrap (size c - weight c en) ∧
       world c' = fire_all (onEvict c) [en] (world c)).
Proof.
  intros Hwf. split.
  - intros Hnil. apply (entries_nil c Hwf) in Hnil.
    split; [|by apply RemoveOldest_empty].
    unfold GetOldest, List_.Back. by rewrite Hnil.
  - intros newer en Hent.
    destruct (evictList c) as [|x l0] eqn:Hl using rev_ind.
    { apply (entries_nil c Hwf) in Hl. rewrite Hl in Hent.
      by destruct newer. }
    clear IHl0.
    destruct (RemoveOldest_back c l0 x Hwf Hl) as (en' & He & Hrm).
    destruct (removeOldest_back c l0 x Hwf Hl) as (en'' & He' & Hrm').
    rewrite He in He'. injection He' as <-.
    rewrite (entries_split c l0 x [] en' Hl He) in Hent. cbn [omap list_omap] in Hent.
    apply app_inj_tail in Hent as [Hnewer ->].
    pose proof (WF_drop_back c l0 x en Hwf Hl He) as Hwf'.
    assert (entries (drop_back c l0 en) = newer) as Hent' by done.
    split.
    + unfold GetOldest, List_.Back. rewrite Hl, last_snoc. by rewrite He.
    + exists (drop_back c l0 en). split_and!; try done.
      * rewrite (Keys_WF c Hwf), (entries_split c l0 x [] en Hl He).
        cbn [omap list_omap]. rewrite Hnewer, reverse_snoc, fmap_cons.
        by rewrite list_fmap_compose, fmap_reverse.
      * rewrite (Keys_WF _ Hwf'), Hent'.
        by rewrite list_fmap_compose, fmap_reverse.
Qed.

(** X4. [NewLRUWithAccounting] fails exactly when the limit is not positive.
    Otherwise it returns an empty cache with that limit: no entries, [Len] and
    [AccountingSize] zero, no key contained, no oldest entry; the cache is
    well formed, and every [Add] on it returns. *)
Theorem NewLRUWithAccounting_empty (lim : Z) (acc : AccountCallback K V)
    (ev : option (EvictCallback K V Obs)) (h : gmap Element (entry K V))
    (w : Obs) :
  (lim ≤ 0 ↔ NewLRUWithAccounting lim acc ev h w = None) ∧
  (0 < lim →
     ∃ c, NewLRUWithAccounting lim acc ev h w = Some c ∧
          limit c = lim ∧ entries c = [] ∧
          Len c = 0 ∧ AccountingSize c = 0 ∧
          Keys c = Done [] ∧
          (∀ k, Contains k c = (false, c)) ∧
          GetOldest c = Done ((None, None, false), c) ∧
          world c = w ∧
          (lim ≤ max_int →
             WF c ∧
             ∀ k v, ∃ b c', ∀ fuel, (0 < fuel)%nat →
               Add fuel k v c = Done (b, c'))).
Proof.
  unfold NewLRUWithAccounting. split.
  - case_decide; split; (done || lia).
  - intros Hpos. rewrite decide_False by lia. eexists. split; [done|].
    split_and!; try done. intros Hmax.
    assert (WF (mkLRU lim 0 [] ∅ ev acc h w)) as Hwf.
    { apply (WF_New lim acc ev h w); [done|].
      unfold NewLRUWithAccounting. by rewrite decide_False by lia. }
    split; [done|]. intros k v.
    by apply (Add_terminates (mkLRU lim 0 [] ∅ ev acc h w) k v Hwf); cbn; lia.
Qed.

(** In a cache whose weights fit, an eviction run does not remove a front
    entry that is within the limit on its own. *)
Lemma evicts_keeps_fitting_front c evs c' :
  evicts c evs c' → WF c → weights_fit c →
  ∀ en rest, entries c = en :: rest → weight c en ≤ limit c →
  ∃ rest', entries c' = en :: rest'.
Proof.
  induction 1 as [c Hle|c l e enb evs c' Hgt Hl He Hrun IH];
    intros Hwf Hfit en rest Hent Hw; [eauto|].
  pose proof (entries_split c l e [] enb Hl He) as Hsplit.
  cbn [omap list_omap] in Hsplit.
  destruct (omap (λ x, heap c !! x) l) as [|en1 r] eqn:Hfront;
    cbn [app] in Hsplit.
  - exfalso. rewrite Hsplit in Hent. injection Hent as <- <-.
    destruct (size_total c Hwf Hfit) as [Hsz _].
    unfold total_weight in Hsz. rewrite Hsplit in Hsz.
    rewrite fmap_cons, sumZ_cons in Hsz. cbn in Hsz. lia.
  - rewrite Hsplit in Hent. injection Hent as -> _.
    assert (entries (drop_back c l enb) = en :: r) as Hent' by exact Hfront.
    destruct (weights_fit_front c (drop_back c l enb) [enb] Hfit eq_refl)
      as [Hfit' _]; [by rewrite Hsplit, Hent'|].
    apply (IH (WF_drop_back c l e enb Hwf Hl He) Hfit' en r); [done|done].
Qed.

(** X5. After an [Add] that returns, the entry added is found with its value
    and is the most recently used one, unless the cache was emptied; and it
    is found whenever the weights are non-negative, their sum is an [int] and
    the weight of the entry is within the limit. *)
Theorem Add_then_lookup c (k : K) (v : V) fuel b c' :
  WF c → Add fuel k v c = Done (b, c') →
  ((Peek k c' = Done ((Some v, true), c') ∧
    head (entries c') = Some (Entry k v)) ∨
   (entries c' = [] ∧ b = true)) ∧
  (∀ c1, Add_place k v c = Done c1 → weights_fit c1 →
     onAccount c k v ≤ limit c →
     Peek k c' = Done ((Some v, true), c') ∧
     head (entries c') = Some (Entry k v)).
Proof.
  intros Hwf Hadd.
  destruct (Add_sound fuel c k v b c' Hwf Hadd)
    as (c1 & evs & Hp & Hwf1 & Hevs & ->).
  destruct (Add_place_WF c k v Hwf)
    as (c1' & rest & Hp' & _ & Hlim & _ & Hacc & _ & _ & Hent & _).
  rewrite Hp in Hp'. injection Hp' as <-.
  destruct (evicts_removed_back c1 evs c' Hevs) as [Hrem Hle].
  destruct (removed_back_facts c1 evs c' Hrem Hwf1)
    as (Hwf' & _ & _ & _ & _ & _ & _ & Hent' & _).
  assert (∀ rest', entries c' = Entry k v :: rest' →
            Peek k c' = Done ((Some v, true), c') ∧
            head (entries c') = Some (Entry k v)) as Hfound.
  { intros rest' Hent0. split; [|by rewrite Hent0].
    assert (Entry k v ∈ entries c') as Hin by (rewrite Hent0; left).
    apply (lookup_entries c' k v Hwf') in Hin as (e & Hit & He).
    unfold Peek. by rewrite Hit, He. }
  split.
  - destruct (entries c') as [|en0 rest'] eqn:Hent0.
    + right. split; [done|]. apply bool_decide_eq_true.
      destruct (decide (size c1 ≤ limit c1)) as [Hle1|]; [|lia].
      apply (evicts_nil_iff c1 evs c' Hevs) in Hle1. subst evs.
      rewrite Hent in Hent'. done.
    + left. rewrite Hent in Hent'. injection Hent' as <- _. by eapply Hfound.
  - intros c1' Hp' Hfit Hw. rewrite Hp in Hp'. injection Hp' as <-.
    destruct (evicts_keeps_fitting_front c1 evs c' Hevs Hwf1 Hfit _ _ Hent)
      as [rest' Hent0]; [|by eapply Hfound].
    unfold weight. rewrite Hacc, Hlim. done.
Qed.

(** X6. [Add] evicts the least recently used entries and touches no other:
    the entries it leaves are the most recently used ones of the cache with
    the new entry at the front, in their order and with their values; the
    callback is called on the others, oldest first. *)
Theorem Add_keeps_most_recent c (k : K) (v : V) fuel b c' :
  WF c → Add fuel k v c = Done (b, c') →
  ∃ evs,
    Entry k v :: filter (λ en, key en ≠ k) (entries c)
    = entries c' ++ reverse evs ∧
    world c' = fire_all (onEvict c) evs (world c) ∧
    (∀ k' v', k' ≠ k → Entry k' v' ∈ entries c' → Entry k' v' ∈ entries c).
Proof.
  intros Hwf Hadd.
  destruct (Add_sound fuel c k v b c' Hwf Hadd)
    as (c1 & evs & Hp & Hwf1 & Hevs & _).
  destruct (Add_place_WF c k v Hwf)
    as (c1' & rest & Hp' & _ & _ & Hev & _ & Hw & _ & Hent & Hrest).
  rewrite Hp in Hp'. injection Hp' as <-.
  destruct (evicts_removed_back c1 evs c' Hevs) as [Hrem _].
  destruct (removed_back_facts c1 evs c' Hrem Hwf1)
    as (_ & _ & _ & _ & _ & _ & _ & Hent' & _ & Hw' & _).
  exists evs. rewrite <- Hrest, <- Hent, <- Hev, <- Hw. split_and!; [done..|].
  intros k' v' Hne Hin.
  assert (Entry k' v' ∈ entries c1) as Hin1.
  { rewrite Hent'. apply elem_of_app. by left. }
  rewrite Hent, Hrest in Hin1. apply elem_of_cons in Hin1 as [[= ? ?]|Hin1].
  - done.
  - by apply list_elem_of_filter in Hin1 as [_ ?].
Qed.

(** X7. [Add] of a key that is not in the cache, when the size with the new
    weight is an [int] within the limit, evicts nothing: it returns false
    whatever the fuel, the new entry is the most recently used one, [Len]
    grows by one and [AccountingSize] by the weight. *)
Theorem Add_within_limit c (k : K) (v : V) :
  WF c → items c !! k = None →
  is_int (size c + onAccount c k v) → size c + onAccount c k v ≤ limit c →
  ∃ c', (∀ fuel, Add fuel k v c = Done (false, c')) ∧
        entries c' = Entry k v :: entries c ∧
        Len c' = Len c + 1 ∧
        AccountingSize c' = AccountingSize c + onAccount c k v ∧
        world c' = world c ∧ limit c' = limit c.
Proof.
  intros Hwf Hit Hint Hle. exists (inserted c k v).
  assert (size (inserted c k v) = size c + onAccount c k v) as Hsz.
  { cbn [size inserted]. by apply wrap_id. }
  split_and!; try done.
  - intros fuel. unfold Add, evictIfNeeded.
    rewrite (Add_place_absent c k v Hit), bind_Done.
    rewrite bool_decide_eq_false_2 by (rewrite Hsz; cbn [limit inserted]; lia).
    destruct fuel; cbn [evict_loop];
      by rewrite decide_False by (rewrite Hsz; cbn [limit inserted]; lia).
  - by apply entries_inserted.
  - unfold Len, List_.Len. cbn [evictList inserted length]. lia.
Qed.

(** X8. [Remove] returns what [Contains] returns and leaves the entries
    whose key is not the removed one, in their order and with their values:
    the other keys are untouched. *)
Theorem Remove_leaves_the_others c (k : K) :
  WF c →
  ∃ c', Remove k c = Done ((Contains k c).1, c') ∧
        entries c' = filter (λ en, key en ≠ k) (entries c) ∧
        Contains k c' = (false, c') ∧
        Len c' = Len c - (if (Contains k c).1 then 1 else 0).
Proof.
  intros Hwf. unfold Contains. cbn [fst].
  destruct (items c !! k) as [ent|] eqn:Hit.
  - destruct (Remove_present c k ent Hwf Hit) as (v & l1 & l2 & He & Hl & Hrm).
    exists (drop_back c (l1 ++ l2) (Entry k v)).
    rewrite bool_decide_eq_true_2 by eauto. split_and!.
    + done.
    + pose proof (WF_keys_NoDup c Hwf) as Hnd.
      rewrite (entries_split c l1 ent l2 _ Hl He) in Hnd |- *.
      rewrite fmap_app, fmap_cons in Hnd.
      apply NoDup_app in Hnd as (_ & Hdis & Hnd2).
      apply NoDup_cons in Hnd2 as [Hk2 _]. cbn [key] in Hdis, Hk2.
      rewrite filter_app, filter_cons_False by (cbn; tauto).
      unfold entries. cbn [evictList heap drop_back]. rewrite omap_app.
      f_equal; symmetry; apply filter_all.
      * intros en Hen Heq. apply (Hdis (key en)).
        -- apply list_elem_of_fmap. eauto.
        -- rewrite Heq. left.
      * intros en Hen Heq. apply Hk2. rewrite <- Heq.
        apply list_elem_of_fmap. eauto.
    + cbn [items drop_back key]. by rewrite lookup_delete_eq.
    + unfold Len, List_.Len. cbn [evictList drop_back].
      rewrite Hl, !length_app. cbn [length]. lia.
  - exists c. rewrite (Remove_absent c k Hit), Hit.
    rewrite bool_decide_eq_false_2 by (by intros [? ?]).
    split_and!; [done| |done|lia].
    symmetry. apply filter_all. intros en Hen Heq.
    apply (lookup_None_entries c k Hwf) in Hit. apply Hit.
    apply list_elem_of_fmap. eauto.
Qed.

Lemma evict_loop_no_panic fuel c : WF c → evict_loop fuel c ≠ Panic.
Proof.
  revert c. induction fuel as [|fuel IH]; intros c Hwf; cbn [evict_loop];
    case_decide; try done.
  destruct (evictList c) as [|x l0] eqn:Hl using rev_ind.
  - rewrite (removeOldest_empty c Hl), bind_Done. by apply IH.
  - clear IHl0.
    destruct (removeOldest_back c l0 x Hwf Hl) as (en & He & ->).
    rewrite bind_Done. apply IH. by eapply WF_drop_back.
Qed.

Lemma Add_no_panic c fuel (k : K) (v : V) : WF c → Add fuel k v c ≠ Panic.
Proof.
  intros Hwf.
  destruct (Add_place_WF c k v Hwf) as (c1 & rest & Hp & Hwf1 & _).
  unfold Add, evictIfNeeded. rewrite Hp, bind_Done.
  pose proof (evict_loop_no_panic fuel c1 Hwf1) as Hnp.
  by destruct (evict_loop fuel c1).
Qed.

(** X9. On a well-formed cache no method panics: the lookups, [Keys], the
    removals, [Resize] and [Purge] return, and [Add] returns or is still
    running, whatever the fuel. *)
Theorem no_method_panics c :
  WF c →
  (∀ fuel k v, Add fuel k v c ≠ Panic) ∧
  (∀ k, ∃ r, Peek k c = Done r) ∧
  (∃ r, GetOldest c = Done r) ∧
  (∃ ks, Keys c = Done ks) ∧
  (∀ k, ∃ r, Remove k c = Done r) ∧
  (∃ r, RemoveOldest c = Done r) ∧
  (∀ sz, ∃ r, Resize sz c = Done r) ∧
  (∀ order, iteration_order order c → ∃ c', Purge order c = Done c').
Proof.
  intros Hwf. split_and!.
  - intros fuel k v. by apply Add_no_panic.
  - intros k. destruct (items c !! k) as [ent|] eqn:Hit.
    + destruct (Peek_present c k ent Hwf Hit) as (v & _ & ->). eauto.
    + rewrite (Peek_absent c k Hit). eauto.
  - unfold GetOldest, List_.Back.
    destruct (last (evictList c)) as [e|] eqn:Hlast; [|eauto].
    destruct (wf_list c Hwf e) as (en & -> & _); [|eauto].
    by eapply last_Some_elem_of.
  - rewrite (Keys_WF c Hwf). eauto.
  - intros k. destruct (items c !! k) as [ent|] eqn:Hit.
    + destruct (Remove_present c k ent Hwf Hit) as (v & l1 & l2 & _ & _ & ->).
      eauto.
    + rewrite (Remove_absent c k Hit). eauto.
  - destruct (evictList c) as [|x l0] eqn:Hl using rev_ind.
    + rewrite (RemoveOldest_empty c Hl). eauto.
    + clear IHl0. destruct (RemoveOldest_back c l0 x Hwf Hl) as (en & _ & ->).
      eauto.
  - intros sz. destruct (Resize_spec c sz Hwf) as (evs & c' & Hres & _).
    cbn zeta in Hres. rewrite Hres. eauto.
  - intros order Hord. rewrite (Purge_eq c order Hwf Hord). eauto.
Qed.

(** X10. Under a negative limit, with weights that are non-negative and
    whose sum is an [int], no [Add] returns: the loop of [evictIfNeeded] is
    still running whatever fuel it is given. *)
Theorem Add_never_returns_under_negative_limit c (k : K) (v : V) c1 :
  WF c → limit c < 0 → Add_place k v c = Done c1 → weights_fit c1 →
  ∀ fuel, Add fuel k v c = OutOfFuel.
Proof.
  intros Hwf Hneg Hp Hfit fuel.
  destruct (Add fuel k v c) as [[b c']| |] eqn:Hadd; [exfalso|exfalso|done].
  - destruct (Add_sound fuel c k v b c' Hwf Hadd)
      as (c1' & evs & Hp' & Hwf1 & Hevs & _).
    rewrite Hp in Hp'. injection Hp' as <-.
    destruct (Add_place_WF c k v Hwf) as (c1' & rest & Hp' & _ & Hlim & _).
    rewrite Hp in Hp'. injection Hp' as <-.
    destruct (evicts_removed_back c1 evs c' Hevs) as [Hrem Hle].
    destruct (removed_back_facts c1 evs c' Hrem Hwf1)
      as (Hwf' & Hlim' & _ & _ & Hacc' & _ & _ & Hent' & _).
    destruct (weights_fit_front c1 c' (reverse evs) Hfit Hacc' Hent')
      as [Hfit' _].
    destruct (size_total c' Hwf' Hfit') as [Hsz' H0]. lia.
  - by apply (Add_no_panic c fuel k v Hwf).
Qed.

(** X11. A second [Get] of the same key returns what the first returned and
    leaves the cache as the first left it. *)
Theorem Get_twice c (k : K) :
  WF c → Get k (Get k c).2 = ((Get k c).1, (Get k c).2).
Proof.
  intros Hwf. destruct (items c !! k) as [ent|] eqn:Hit.
  - destruct (Get_present c k ent Hwf Hit) as (v & l1 & l2 & He & Hl & ->).
    cbn [fst snd]. unfold Get at 1. cbn [items heap evictList set_evictList].
    rewrite Hit, He.
    pose proof (wf_linked c Hwf) as Hnd. rewrite Hl in Hnd.
    assert (NoDup ([] ++ ent :: l1 ++ l2)) as Hnd'.
    { cbn [app]. apply NoDup_cons. split.
      - by apply NoDup_middle_notin.
      - apply NoDup_app in Hnd as (Hnd1 & Hdis & Hnd2).
        apply NoDup_cons in Hnd2 as [_ Hnd2].
        apply NoDup_app. split_and!; [done| |done].
        intros x Hx1 Hx2. apply (Hdis x Hx1). by right. }
    pose proof (List_facts.MoveToFront_split ent [] (l1 ++ l2) Hnd') as Hmv.
    cbn [app] in Hmv. by rewrite Hmv.
  - rewrite (Get_absent c k Hit). cbn [fst snd]. by apply Get_absent.
Qed.

(** X12. Only [Resize] changes the limit: [Add], [Get], [Remove],
    [RemoveOldest] and [Purge] keep it, and [Resize] sets it to its argument,
    whatever that is. *)
Theorem limit_changes_only_in_Resize c :
  WF c →
  (∀ fuel k v b c', Add fuel k v c = Done (b, c') → limit c' = limit c) ∧
  (∀ k, limit (Get k c).2 = limit c) ∧
  (∀ k b c', Remove k c = Done (b, c') → limit c' = limit c) ∧
  (∀ r c', RemoveOldest c = Done (r, c') → limit c' = limit c) ∧
  (∀ order c', iteration_order order c → Purge order c = Done c' →
     limit c' = limit c) ∧
  (∀ sz n c', Resize sz c = Done (n, c') → limit c' = sz).
Proof.
  intros Hwf. split_and!.
  - intros fuel k v b c' Hadd.
    destruct (Add_sound fuel c k v b c' Hwf Hadd)
      as (c1 & evs & Hp & Hwf1 & Hevs & _).
    destruct (Add_place_WF c k v Hwf) as (c1' & rest & Hp' & _ & Hlim & _).
    rewrite Hp in Hp'. injection Hp' as <-.
    destruct (evicts_removed_back c1 evs c' Hevs) as [Hrem _].
    destruct (removed_back_facts c1 evs c' Hrem Hwf1) as (_ & Hlim' & _).
    congruence.
  - intros k. destruct (items c !! k) as [ent|] eqn:Hit.
    + by destruct (Get_present c k ent Hwf Hit) as (v & l1 & l2 & _ & _ & ->).
    + by rewrite (Get_absent c k Hit).
  - intros k b c' Hrm. destruct (items c !! k) as [ent|] eqn:Hit.
    + destruct (Remove_present c k ent Hwf Hit)
        as (v & l1 & l2 & _ & _ & Hrm').
      rewrite Hrm' in Hrm. by injection Hrm as <- <-.
    + rewrite (Remove_absent c k Hit) in Hrm. by injection Hrm as <- <-.
  - intros r c' Hrm. destruct (evictList c) as [|x l0] eqn:Hl using rev_ind.
    + rewrite (RemoveOldest_empty c Hl) in Hrm. by injection Hrm as <- <-.
    + clear IHl0. destruct (RemoveOldest_back c l0 x Hwf Hl) as (en & _ & Hrm').
      rewrite Hrm' in Hrm. by injection Hrm as <- <-.
  - intros order c' Hord Hp. rewrite (Purge_eq c order Hwf Hord) in Hp.
    by injection Hp as <-.
  - intros sz n c' Hres.
    destruct (Resize_spec c sz Hwf) as (evs & c2 & Hres' & _).
    cbn zeta in Hres'. rewrite Hres' in Hres. by injection Hres as <- <-.
Qed.

(** X13. Adding again the entry that an [Add] has just added, and kept,
    changes nothing: the second [Add] returns false and the same cache. *)
Theorem Add_twice c (k : K) (v : V) fuel b c' :
  WF c → Add fuel k v c = Done (b, c') → entries c' ≠ [] →
  ∀ fuel', Add fuel' k v c' = Done (false, c').
Proof.
  intros Hwf Hadd Hne fuel'.
  destruct (Add_sound fuel c k v b c' Hwf Hadd)
    as (c1 & evs & Hp & Hwf1 & Hevs & _).
  destruct (Add_place_WF c k v Hwf)
    as (c1' & rest & Hp' & _ & _ & _ & _ & _ & _ & Hent & _).
  rewrite Hp in Hp'. injection Hp' as <-.
  destruct (evicts_removed_back c1 evs c' Hevs) as [Hrem Hle].
  destruct (removed_back_facts c1 evs c' Hrem Hwf1)
    as (Hwf' & _ & _ & _ & _ & _ & _ & Hent' & _).
  destruct (entries c') as [|en0 rest'] eqn:Hent0; [done|].
  rewrite Hent in Hent'. injection Hent' as <- _.
  assert (Entry k v ∈ entries c') as Hin by (rewrite Hent0; left).
  apply (lookup_entries c' k v Hwf') in Hin as (ent & Hit & He).
  destruct (Add_place_present c' k v ent Hwf' Hit)
    as (old & l1 & l2 & He' & Hl & Hplace).
  rewrite He in He'. injection He' as <-.
  assert (l1 = []) as ->.
  { destruct l1 as [|x l1]; [done|]. exfalso.
    destruct (wf_list c' Hwf' x) as (enx & Hx & Hitx).
    { rewrite Hl. left. }
    unfold entries in Hent0. rewrite Hl in Hent0. cbn in Hent0.
    rewrite Hx in Hent0. injection Hent0 as -> _. cbn in Hitx.
    rewrite Hit in Hitx. injection Hitx as ->.
    pose proof (wf_linked c' Hwf') as Hnd. rewrite Hl in Hnd.
    apply NoDup_cons in Hnd as [Hnin _]. apply Hnin.
    apply elem_of_app. right. left. }
  assert (updated c' k v ent v [] l2 = c') as Hsame.
  { unfold updated. cbn [app] in Hl |- *. rewrite <- Hl.
    rewrite Z.sub_diag, Z.add_0_r, insert_id by done.
    rewrite (wrap_id (size c')).
    - by destruct c'.
    - rewrite (wf_size c' Hwf'). apply wrap_is_int. }
  unfold Add, evictIfNeeded. rewrite Hplace, Hsame, bind_Done.
  rewrite bool_decide_eq_false_2 by lia.
  destruct fuel'; cbn [evict_loop]; by rewrite decide_False by lia.
Qed.

End usage.

(** ** The tests of the package and the examples *)

Module Examples.
Import Tests.

(** [TestLRUWithAccounting]: after ten insertions the accounted size is
    10, five entries were evicted and the keys are "5" to "9", oldest
    first. *)
Example TestLRUWithAccounting_first_loop :
  (c ← ten_added; ks ← Keys c; mret (AccountingSize c, world c, ks))
  = Done (10, 5%nat, Some <$> ["5"; "6"; "7"; "8"; "9"]%string).
Proof. vm_compute. reflexivity. Qed.

(** [TestLRUWithAccounting_update]: fourteen evictions. *)
Example TestLRUWithAccounting_update_count :
  (c ← ten_updated; mret (world c)) = Done 14%nat.
Proof. vm_compute. reflexivity. Qed.

(** The rest of [TestLRUWithAccounting]: the second [Remove] of a key
    returns false, [Get("7")] makes "7" the newest key, and [Purge] leaves
    nothing. *)
Example TestLRUWithAccounting_whole :
  whole_test
  = Done (true, false, Some <$> ["8"; "9"; "7"]%string, 0, 0, (None, false)).
Proof. vm_compute. reflexivity. Qed.

(** The five evictions of the first loop are those of the five oldest
    entries, oldest first, each with its own key and value. *)
Example evictions_recorded :
  ten_recorded
  = Done [("0", "0"); ("1", "1"); ("2", "2"); ("3", "3"); ("4", "4")]%string.
Proof. vm_compute. reflexivity. Qed.

Example one_reached :
  (c ← deref (new 10); r ← Add 5 "a" "a" c; mret r.2) = Done one.
Proof. vm_compute. reflexivity. Qed.

Example three_reached :
  (c ← deref (new 10); add_all 5 id ["a"; "b"; "c"]%string c) = Done three.
Proof. vm_compute. reflexivity. Qed.

Example five_reached :
  (c ← deref (new 10); add_all 6 id ["5"; "6"; "7"; "8"; "9"]%string c)
  = Done five.
Proof. vm_compute. reflexivity. Qed.

Example over_reached : Resize 5 five = Done (0, over).
Proof. vm_compute. reflexivity. Qed.

Example negative_reached :
  (c ← deref (new 10); Resize (-1) c) = Done (1, negative).
Proof. vm_compute. reflexivity. Qed.

Lemma one_WF : WF one.
Proof. apply WF_check_sound. vm_compute. reflexivity. Qed.

Lemma three_WF : WF three.
Proof. apply WF_check_sound. vm_compute. reflexivity. Qed.

Lemma five_WF : WF five.
Proof. apply WF_check_sound. vm_compute. reflexivity. Qed.

Lemma over_WF : WF over.
Proof. apply WF_check_sound. vm_compute. reflexivity. Qed.

Lemma negative_WF : WF negative.
Proof. apply WF_check_sound. vm_compute. reflexivity. Qed.

(** C1 fails on the code.  [Resize(5)] on five entries of weight 2 removes
    nothing and leaves the size 10 above the limit 5, with five entries,
    none of them heavier than the limit.  And an entry of weight 17 added
    under the limit 10 is not kept as the only entry: it is evicted with
    the others and the cache ends empty. *)
Lemma Resize_leaves_size_over_limit :
  (∃ c', Resize 5 five = Done (0, c') ∧
         ¬ within_limit_or_oversized c' ∧
         size c' = 10 ∧ limit c' = 5 ∧ Len c' = 5 ∧
         weight c' <$> entries c' = [2; 2; 2; 2; 2]) ∧
  (∃ c', Add 10 "k" big three = Done (true, c') ∧
         limit three < onAccount three "k" big ∧
         entries c' = []).
Proof.
  split.
  - exists over. split; [by vm_compute|]. split; [|by vm_compute].
    intros [Hle|(en & Hent & _)].
    + vm_compute in Hle. by apply Hle.
    + vm_compute in Hent. discriminate Hent.
  - eexists. split; [by vm_compute|]. by vm_compute.
Qed.

(** C2 is broken by the code under a negative limit.  After [Resize(-1)] on
    a new cache, which returns 1, [Add("a", "a")] puts the entry in place,
    evicts it, and goes on asking for the oldest entry of an empty list: the
    loop does not stop when no entries remain, and [Add] never returns. *)
Theorem Add_after_negative_Resize_never_returns :
  (c ← deref (new 10); Resize (-1) c) = Done (1, negative) ∧
  ∀ fuel, Add fuel "a" "a" negative = OutOfFuel.
Proof.
  split; [by vm_compute|]. intros fuel.
  apply (Add_on_empty_negative negative _ _ fuel negative_WF eq_refl);
    by vm_compute.
Qed.

(** C4 is broken by the code for a negative limit, which [Resize] accepts
    although the constructor does not.  [Resize(-1)] on a cache of one entry
    returns 2, and one entry was removed, with one call of the callback; the
    list is then empty, which is not "at most -1" entries. *)
Theorem Resize_negative_overcounts :
  ∃ c', Resize (-1) one = Done (2, c') ∧
        Len one = 1 ∧ Len c' = 0 ∧ world one = 0%nat ∧ world c' = 1%nat ∧
        limit c' = -1 ∧ ¬ Len c' ≤ limit c'.
Proof.
  eexists. split; [by vm_compute|]. split_and!; by vm_compute.
Qed.

(** *** The theorems at work on the caches above *)

Ltac by_check := apply WF_check_sound; vm_compute; reflexivity.
Ltac by_decision := apply (bool_decide_unpack _); vm_compute; exact I.

Lemma Remove_present_or_absent_witness :
  WF three ∧
  (∃ c', Remove "b" three = Done (true, c') ∧
         Remove "b" c' = Done (false, c')) ∧
  Remove "z" three = Done (false, three).
Proof.
  assert (WF three) as Hwf by by_check.
  destruct (Remove_present_or_absent three "b" Hwf) as [Hpresent _].
  destruct (Remove_present_or_absent three "z" Hwf) as [_ Habsent].
  assert (items three !! "b" = Some 2%positive) as Hb
    by (vm_compute; reflexivity).
  assert (items three !! "z" = None) as Hz by (vm_compute; reflexivity).
  destruct (Hpresent _ Hb)
    as (v & l1 & l2 & c' & _ & _ & Hrm & _ & _ & _ & _ & _ & _ & Hagain).
  split; [exact Hwf|]. split; [by exists c'|]. exact (Habsent Hz).
Defined.

Lemma Get_promotes_Peek_Contains_do_not_witness :
  WF three ∧
  (∃ v older newer c',
     Get "a" three = ((Some v, true), c') ∧
     Keys three = Done (older ++ Some "a" :: newer) ∧
     Keys c' = Done (older ++ newer ++ [Some "a"])) ∧
  (∃ r, Peek "a" three = Done (r, three)).
Proof.
  assert (WF three) as Hwf by by_check.
  destruct (Get_promotes_Peek_Contains_do_not three "a" Hwf)
    as (Hget & _ & Hpeek & _).
  assert (items three !! "a" = Some 1%positive) as Ha
    by (vm_compute; reflexivity).
  destruct (Hget _ Ha) as (v & older & newer & c' & _ & Hg & Hk & Hk' & _).
  split; [exact Hwf|]. split; [|exact Hpeek].
  by exists v, older, newer, c'.
Defined.

Lemma Purge_empties_witness :
  WF three ∧
  iteration_order [("b", 2); ("a", 1); ("c", 3)]%string%positive three ∧
  ∃ c', Purge [("b", 2); ("a", 1); ("c", 3)]%string%positive three = Done c' ∧
        Len c' = 0 ∧ AccountingSize c' = 0 ∧
        Get "a" c' = ((None, false), c').
Proof.
  assert (WF three) as Hwf by by_check.
  assert (iteration_order [("b", 2); ("a", 1); ("c", 3)]%string%positive
            three) as Hord.
  { unfold iteration_order. by_decision. }
  destruct (Purge_empties three _ Hwf Hord)
    as (c' & Hp & _ & _ & _ & _ & _ & Hlen & Hsz & Hget).
  split; [exact Hwf|]. split; [exact Hord|]. exists c'.
  split_and!; [done..|]. by destruct (Hget "a"%string).
Defined.

Lemma Add_update_accounting_witness :
  WF three ∧ items three !! "a"%string = Some 1%positive ∧
  ∃ old c1,
    Add_place "a" big three = Done c1 ∧
    size c1 - size three = onAccount three "a" big - onAccount three "a" old ∧
    Len c1 = Len three.
Proof.
  assert (WF three) as Hwf by by_check.
  assert (items three !! "a"%string = Some 1%positive) as Ha
    by (vm_compute; reflexivity).
  destruct (Add_update_accounting three "a" big 1%positive Hwf Ha)
    as (old & c1 & He & Hp & _ & _ & _ & Hexact & _ & _ & _ & Hlen & _).
  split; [exact Hwf|]. split; [exact Ha|]. exists old, c1.
  split_and!; [done| |done]. apply Hexact.
  assert (heap three !! 1%positive = Some (Entry "a" "a")%string) as He'
    by (vm_compute; reflexivity).
  rewrite He' in He. injection He as <-. unfold is_int. by vm_compute.
Defined.

Lemma Add_returns_true_iff_evicted_witness :
  WF three ∧
  (∃ c' c1 evs,
     Add 10 "k" big three = Done (true, c') ∧
     Add_place "k" big three = Done c1 ∧ evicts c1 evs c' ∧
     limit c1 < size c1 ∧ evs ≠ [] ∧ Len c' < Len c1) ∧
  0 ≤ limit three ∧
  ∃ b c', ∀ fuel, (3 < fuel)%nat → Add fuel "k" big three = Done (b, c').
Proof.
  assert (WF three) as Hwf by by_check.
  destruct (Add_returns_true_iff_evicted three "k" big Hwf) as [Hiff Hret].
  assert (∃ c', Add 10 "k" big three = Done (true, c')) as [c' Hadd].
  { eexists. vm_compute. reflexivity. }
  destruct (Hiff _ _ _ Hadd) as (c1 & evs & Hp & Hevs & H1 & H2 & H3).
  assert (0 ≤ limit three) as Hlim by by vm_compute.
  split; [exact Hwf|]. split.
  - exists c', c1, evs. split_and!; [done..| | |].
    + by apply H1.
    + by apply H2.
    + by apply H3.
  - split; [exact Hlim|]. exact (Hret Hlim).
Defined.

Lemma evictIfNeeded_terminates_witness :
  WF over ∧ 0 ≤ limit over ∧
  ∃ b c' evs,
    (∀ fuel, (5 ≤ fuel)%nat → evictIfNeeded fuel over = Done (b, c')) ∧
    evicts over evs c' ∧ size c' ≤ limit c'.
Proof.
  assert (WF over) as Hwf by by_check.
  assert (0 ≤ limit over) as Hlim by by vm_compute.
  destruct (evictIfNeeded_terminates over Hwf) as [Hpos _].
  destruct (Hpos Hlim) as [Hloop _].
  split; [exact Hwf|]. split; [exact Hlim|]. exact Hloop.
Defined.

Lemma onEvict_once_per_departure_witness :
  WF three ∧
  ∃ b c' calls,
    Remove "b" three = Done (b, c') ∧
    callbacks_exact (entries three) (entries c') calls ∧
    world c' = fire_all (onEvict three) calls (world three).
Proof.
  assert (WF three) as Hwf by by_check.
  destruct (onEvict_once_per_departure three Hwf) as [Hremove _].
  split; [exact Hwf|]. exact (Hremove "b"%string).
Defined.

Lemma size_within_limit_witness :
  WF three ∧ weights_fit three ∧ size three ≤ limit three ∧
  0 ≤ limit three ∧
  (∀ fuel k v b c', Add fuel k v three = Done (b, c') →
     size c' ≤ limit c') ∧
  (∀ k, ∃ b c', Remove k three = Done (b, c') ∧ size c' ≤ limit c') ∧
  (∃ r c', RemoveOldest three = Done (r, c') ∧ size c' ≤ limit c').
Proof.
  assert (WF three) as Hwf by by_check.
  assert (weights_fit three) as Hfit by (unfold weights_fit; by_decision).
  assert (size three ≤ limit three) as Hle by by vm_compute.
  assert (0 ≤ limit three) as Hlim by by vm_compute.
  destruct (size_within_limit three Hwf)
    as (Hadd & _ & _ & Hremove & Holdest & _).
  split_and!; [done..|exact Hadd|exact (Hremove Hfit Hle)
              |exact (Holdest Hfit Hle)].
Defined.

End Examples.

(** ** The theorems on the use of the cache, at work *)

Module Usage_examples.
Import Tests Examples.

Lemma lookups_agree_witness :
  WF three ∧
  Peek "a" three = Done ((Get "a" three).1, three) ∧
  Peek "z" three = Done ((Get "z" three).1, three).
Proof.
  assert (WF three) as Hwf by by_check.
  destruct (lookups_agree three "a" Hwf) as [Ha _].
  destruct (lookups_agree three "z" Hwf) as [Hz _].
  done.
Defined.

Lemma Keys_are_the_contained_keys_witness :
  WF three ∧
  ∃ ks, Keys three = Done (Some <$> ks) ∧ NoDup ks ∧
        Len three = Z.of_nat (length ks) ∧
        (∀ k, Contains k three = (true, three) ↔ k ∈ ks).
Proof.
  assert (WF three) as Hwf by by_check.
  destruct (Keys_are_the_contained_keys three Hwf)
    as (ks & Hk & _ & Hnd & Hlen & _ & Hc).
  split; [exact Hwf|]. by exists ks.
Defined.

Lemma oldest_entry_witness :
  WF three ∧
  entries three = [Entry "c" "c"; Entry "b" "b"]%string ++ [Entry "a" "a"]%string ∧
  GetOldest three = Done ((Some "a", Some "a", true)%string, three) ∧
  ∃ c', RemoveOldest three = Done ((Some "a", Some "a", true)%string, c') ∧
        entries c' = [Entry "c" "c"; Entry "b" "b"]%string.
Proof.
  assert (WF three) as Hwf by by_check.
  assert (entries three
          = [Entry "c" "c"; Entry "b" "b"]%string ++ [Entry "a" "a"]%string)
    as Hent by (vm_compute; reflexivity).
  destruct (oldest_entry three Hwf) as [_ Hback].
  destruct (Hback _ _ Hent) as (Hget & c' & Hrm & _ & Hent' & _).
  split; [exact Hwf|]. split; [exact Hent|]. split; [exact Hget|].
  by exists c'.
Defined.

Lemma NewLRUWithAccounting_empty_witness :
  new 0 = None ∧ 0 < 10 ∧
  ∃ c, new 10 = Some c ∧ limit c = 10 ∧ entries c = [] ∧ WF c.
Proof.
  destruct (NewLRUWithAccounting_empty 0 onAccount_len (Some onEvicted) ∅ 0%nat)
    as [Hzero _].
  destruct (NewLRUWithAccounting_empty 10 onAccount_len (Some onEvicted) ∅ 0%nat)
    as [_ Hten].
  assert (0 < 10) as Hpos by lia.
  assert (10 ≤ max_int) as Hmax by by vm_compute.
  destruct (Hten Hpos) as (c & Hnew & Hlim & Hent & _ & _ & _ & _ & _ & _ & Hwf).
  split; [apply Hzero; lia|]. split; [exact Hpos|]. exists c.
  split_and!; [done..|]. by destruct (Hwf Hmax).
Defined.

Lemma Add_then_lookup_witness :
  WF three ∧
  ∃ c', Add 10 "d" "d" three = Done (false, c') ∧
        Peek "d" c' = Done ((Some "d"%string, true), c').
Proof.
  assert (WF three) as Hwf by by_check.
  assert (∃ c', Add 10 "d" "d" three = Done (false, c')) as [c' Hadd].
  { eexists. vm_compute. reflexivity. }
  destruct (Add_then_lookup three "d" "d" 10 false c' Hwf Hadd)
    as [[[Hpeek _]|[_ Hb]] _]; [|done].
  split; [exact Hwf|]. by exists c'.
Defined.

Lemma Add_keeps_most_recent_witness :
  WF five ∧
  ∃ c' evs,
    Add 10 "a" "a" five = Done (true, c') ∧
    Entry "a" "a" :: filter (λ en, key en ≠ "a") (entries five)
    = entries c' ++ reverse evs ∧
    world c' = fire_all (onEvict five) evs (world five).
Proof.
  assert (WF five) as Hwf by by_check.
  assert (∃ c', Add 10 "a" "a" five = Done (true, c')) as [c' Hadd].
  { eexists. vm_compute. reflexivity. }
  destruct (Add_keeps_most_recent five "a" "a" 10 true c' Hwf Hadd)
    as (evs & Hent & Hw & _).
  split; [exact Hwf|]. by exists c', evs.
Defined.

Lemma Add_within_limit_witness :
  WF three ∧ items three !! "d"%string = None ∧
  is_int (size three + onAccount three "d" "d") ∧
  size three + onAccount three "d" "d" ≤ limit three ∧
  ∃ c', (∀ fuel, Add fuel "d" "d" three = Done (false, c')) ∧
        entries c' = Entry "d" "d" :: entries three ∧
        Len c' = Len three + 1.
Proof.
  assert (WF three) as Hwf by by_check.
  assert (items three !! "d"%string = None) as Hit by (vm_compute; reflexivity).
  assert (is_int (size three + onAccount three "d" "d")) as Hint.
  { unfold is_int. by vm_compute. }
  assert (size three + onAccount three "d" "d" ≤ limit three) as Hle
    by by vm_compute.
  destruct (Add_within_limit three "d" "d" Hwf Hit Hint Hle)
    as (c' & Hadd & Hent & Hlen & _).
  split_and!; [done..|]. by exists c'.
Defined.

Lemma Remove_leaves_the_others_witness :
  WF three ∧
  ∃ c', Remove "b" three = Done ((Contains "b" three).1, c') ∧
        entries c' = filter (λ en, key en ≠ "b") (entries three).
Proof.
  assert (WF three) as Hwf by by_check.
  destruct (Remove_leaves_the_others three "b" Hwf) as (c' & Hrm & Hent & _).
  split; [exact Hwf|]. by exists c'.
Defined.

Lemma no_method_panics_witness :
  WF three ∧ (∀ fuel k v, Add fuel k v three ≠ Panic) ∧
  ∃ ks, Keys three = Done ks.
Proof.
  assert (WF three) as Hwf by by_check.
  destruct (no_method_panics three Hwf) as (Hadd & _ & _ & Hkeys & _).
  done.
Defined.

Lemma Add_never_returns_under_negative_limit_witness :
  WF negative ∧ limit negative < 0 ∧
  (∃ c1, Add_place "a" "a" negative = Done c1 ∧ weights_fit c1) ∧
  ∀ fuel, Add fuel "a" "a" negative = OutOfFuel.
Proof.
  assert (WF negative) as Hwf by by_check.
  assert (limit negative < 0) as Hneg by by vm_compute.
  assert (∃ c1, Add_place "a" "a" negative = Done c1 ∧ weights_fit c1)
    as (c1 & Hp & Hfit).
  { eexists. split; [vm_compute; reflexivity|].
    unfold weights_fit. by_decision. }
  split_and!; [done..|by exists c1|].
  exact (Add_never_returns_under_negative_limit negative "a" "a" c1
           Hwf Hneg Hp Hfit).
Defined.

Lemma Get_twice_witness :
  WF three ∧
  Get "a" (Get "a" three).2 = ((Get "a" three).1, (Get "a" three).2).
Proof.
  assert (WF three) as Hwf by by_check.
  split; [exact Hwf|]. exact (Get_twice three "a" Hwf).
Defined.

Lemma limit_changes_only_in_Resize_witness :
  WF three ∧ (∀ k, limit (Get k three).2 = limit three) ∧
  (∀ sz n c', Resize sz three = Done (n, c') → limit c' = sz).
Proof.
  assert (WF three) as Hwf by by_check.
  destruct (limit_changes_only_in_Resize three Hwf)
    as (_ & Hget & _ & _ & _ & Hres).
  done.
Defined.

Lemma Add_twice_witness :
  WF three ∧
  ∃ c', Add 10 "d" "d" three = Done (false, c') ∧ entries c' ≠ [] ∧
        ∀ fuel, Add fuel "d" "d" c' = Done (false, c').
Proof.
  assert (WF three) as Hwf by by_check.
  assert (∃ c', Add 10 "d" "d" three = Done (false, c') ∧ entries c' ≠ [])
    as (c' & Hadd & Hne).
  { eexists. split; [vm_compute; reflexivity|]. by vm_compute. }
  split; [exact Hwf|]. exists c'. split_and!; [done..|].
  exact (Add_twice three "d" "d" 10 false c' Hwf Hadd Hne).
Defined.

Lemma WF_kept_witness :
  WF three ∧ (∀ k, WF (Get k three).2) ∧
  (∀ fuel k v b c', Add fuel k v three = Done (b, c') → WF c').
Proof.
  assert (WF three) as Hwf by by_check.
  destruct (WF_kept three Hwf) as (Hadd & Hget & _).
  done.
Defined.

Lemma Resize_nonneg_witness :
  WF five ∧ 0 ≤ 2 ≤ max_int ∧ Len five ≤ max_int ∧
  ∃ evs c', Resize 2 five = Done (Z.max (Len five - 2) 0, c') ∧
            limit c' = 2 ∧ Len c' = Z.min (Len five) 2 ∧
            entries five = entries c' ++ reverse evs.
Proof.
  assert (WF five) as Hwf by by_check.
  assert (0 ≤ 2 ≤ max_int) as Hsz by by vm_compute.
  assert (Len five ≤ max_int) as Hlen by by vm_compute.
  destruct (Resize_nonneg five 2 Hwf Hsz Hlen)
    as (evs & c' & Hres & Hlim & _ & Hlen' & _ & _ & Hent & _).
  split_and!; [done..|]. by exists evs, c'.
Defined.

Lemma Add_evicts_until_within_limit_witness :
  WF five ∧ 0 ≤ limit five ∧
  ∃ c1 evs b c',
    Add_place "a" "a" five = Done c1 ∧
    (∀ fuel, (5 < fuel)%nat → Add fuel "a" "a" five = Done (b, c')) ∧
    evicts c1 evs c' ∧ size c' ≤ limit c'.
Proof.
  assert (WF five) as Hwf by by_check.
  assert (0 ≤ limit five) as Hlim by by vm_compute.
  destruct (Add_evicts_until_within_limit five "a" "a" Hwf Hlim)
    as (c1 & evs & b & c' & Hp & Hadd & Hevs & Hle & _).
  split_and!; [done..|]. by exists c1, evs, b, c'.
Defined.

End Usage_examples.
